(** * PhotoGallery: navigation, drag, autoplay and configuration of
    [src/photogallery.js]

    A shallow embedding of the [PhotoGallery] class.  The instance fields the
    methods read and write ([this.activeIndex], [this.isDragging],
    [this.track.style], the children of [this.navContainer], the interval
    handle) become the fields of one record that every method takes and
    returns; the listeners registered in [_bindEvents] and [startAutoplay]
    become one dispatch function over an event type.

    Numbers.  Slide indices and pointer coordinates are JavaScript numbers;
    the model takes them in [Z], i.e. whole values inside the range where
    the additions and comparisons of the source are exact.  The only
    arithmetic of the source that leaves the integers is the division by the
    stage width in [_touchMove]; its operands are kept, unevaluated, in the
    value written to the track's [transform].

    Configuration.  [_mergeConfig] and the aspect-ratio block of
    [_initStructure] work on JavaScript objects and texts; they are modelled
    on finite maps from property names to values and on strings, apart from
    the record of options the navigation reads. *)

From stdpp Require Import base gmap list strings.
From Stdlib Require Import ZArith Lia.

Local Open Scope Z_scope.

(** ** Data *)

(** An entry of [this.items] (built in [_initStructure], lines 93-97). *)
Record item := Item {
  src : string;
  thumb : string;
  alt : string;
}.

(** [config.nav]: ['dots'], ['thumbs'], or [false] ([None]). *)
Inductive nav_kind := NavDots | NavThumbs.

(** The options of [defaults] (lines 42-57) that the methods below test.
    [width], [ratio], [allowfullscreen], [thumbwidth] and [thumbheight] only
    style the elements created in [_initStructure]. *)
Record Config := {
  nav : option nav_kind;
  loop : bool;
  autoplay : option Z;   (* time in ms, or [false] *)
  arrows : bool;
  click : bool;
  swipe : bool;
  keyboard : bool;
}.

Definition defaults : Config :=
  {| nav := Some NavDots; loop := false; autoplay := None; arrows := true;
     click := true; swipe := true; keyboard := true |}.

(** Values of [this.track.style.transition]. *)
Inductive css_transition :=
| TransitionUnset                 (* never written *)
| TransitionNone                  (* "none" *)
| TransitionEaseOut.              (* "transform var(--ng-transition-speed) ease-out" *)

(** Values of [this.track.style.transform]. *)
Inductive css_transform :=
| TransformUnset
  (* [goto], line 257: translateX(percentage%) *)
| TranslateX (percentage : Z)
  (* [_touchMove], lines 327-330:
     translateX(-(activeIndex * 100) + (diff / stageWidth) * 100 %) *)
| TranslateXDrag (index diff stageWidth : Z).

(** The instance.  [navContainer] holds, for each child of the navigation
    strip, whether it carries the class "active"; [navScroll] is the child
    last passed to [scrollIntoView]; [timers] are the interval timers of the
    host that are scheduled and not cleared, [nextTimerId] the handle the
    next [setInterval] returns; [hoverListeners] counts the pairs of
    mouseenter/mouseleave listeners [startAutoplay] has added to the
    container. *)
Record gallery := Gallery {
  config : Config;
  items : list item;
  activeIndex : Z;
  isDragging : bool;
  startPos : Z;
  currentTranslate : Z;
  prevTranslate : Z;
  track_transition : css_transition;
  track_transform : css_transform;
  navContainer : option (list bool);
  navScroll : option nat;
  interval : option nat;
  timers : gset nat;
  nextTimerId : nat;
  hoverListeners : nat;
}.

(** [this.items.length] *)
Definition items_length (s : gallery) : Z := Z.of_nat (length (items s)).

(** *** Field updates *)

Definition set_isDragging (b : bool) (s : gallery) : gallery :=
  {| config := config s; items := items s; activeIndex := activeIndex s;
     isDragging := b; startPos := startPos s;
     currentTranslate := currentTranslate s; prevTranslate := prevTranslate s;
     track_transition := track_transition s;
     track_transform := track_transform s;
     navContainer := navContainer s; navScroll := navScroll s;
     interval := interval s; timers := timers s;
     nextTimerId := nextTimerId s; hoverListeners := hoverListeners s |}.

Definition set_startPos (x : Z) (s : gallery) : gallery :=
  {| config := config s; items := items s; activeIndex := activeIndex s;
     isDragging := isDragging s; startPos := x;
     currentTranslate := currentTranslate s; prevTranslate := prevTranslate s;
     track_transition := track_transition s;
     track_transform := track_transform s;
     navContainer := navContainer s; navScroll := navScroll s;
     interval := interval s; timers := timers s;
     nextTimerId := nextTimerId s; hoverListeners := hoverListeners s |}.

Definition set_transition (t : css_transition) (s : gallery) : gallery :=
  {| config := config s; items := items s; activeIndex := activeIndex s;
     isDragging := isDragging s; startPos := startPos s;
     currentTranslate := currentTranslate s; prevTranslate := prevTranslate s;
     track_transition := t;
     track_transform := track_transform s;
     navContainer := navContainer s; navScroll := navScroll s;
     interval := interval s; timers := timers s;
     nextTimerId := nextTimerId s; hoverListeners := hoverListeners s |}.

Definition set_transform (t : css_transform) (s : gallery) : gallery :=
  {| config := config s; items := items s; activeIndex := activeIndex s;
     isDragging := isDragging s; startPos := startPos s;
     currentTranslate := currentTranslate s; prevTranslate := prevTranslate s;
     track_transition := track_transition s;
     track_transform := t;
     navContainer := navContainer s; navScroll := navScroll s;
     interval := interval s; timers := timers s;
     nextTimerId := nextTimerId s; hoverListeners := hoverListeners s |}.

Definition set_timers (iv : option nat) (live : gset nat) (fresh : nat)
    (s : gallery) : gallery :=
  {| config := config s; items := items s; activeIndex := activeIndex s;
     isDragging := isDragging s; startPos := startPos s;
     currentTranslate := currentTranslate s; prevTranslate := prevTranslate s;
     track_transition := track_transition s;
     track_transform := track_transform s;
     navContainer := navContainer s; navScroll := navScroll s;
     interval := iv; timers := live;
     nextTimerId := fresh; hoverListeners := hoverListeners s |}.

Definition set_hoverListeners (n : nat) (s : gallery) : gallery :=
  {| config := config s; items := items s; activeIndex := activeIndex s;
     isDragging := isDragging s; startPos := startPos s;
     currentTranslate := currentTranslate s; prevTranslate := prevTranslate s;
     track_transition := track_transition s;
     track_transform := track_transform s;
     navContainer := navContainer s; navScroll := navScroll s;
     interval := interval s; timers := timers s;
     nextTimerId := nextTimerId s; hoverListeners := n |}.

(** ** Navigation: [goto], [next], [prev] (lines 239-282) *)

(** Lines 241-248: the index [goto] stores for a requested [index]. *)
Definition goto_index (s : gallery) (index : Z) : Z :=
  if loop (config s) then
    let index := if index <? 0 then items_length s - 1 else index in
    if index >=? items_length s then 0 else index
  else
    let index := if index <? 0 then 0 else index in
    if index >=? items_length s then items_length s - 1 else index.

(** [thumbs[index]]: [undefined] ([None]) for a negative index or one past
    the end. *)
Definition thumb_at (thumbs : list bool) (index : Z) : option bool :=
  if index <? 0 then None else thumbs !! Z.to_nat index.

(** Lines 262-272 on the children of the strip: "active" is removed from
    every child, then added to [thumbs[index]] when that child exists, and
    the child is scrolled into view.  Returns the children and the new scroll
    target. *)
Definition update_nav (thumbs : list bool) (scrolled : option nat) (index : Z)
    : list bool * option nat :=
  let thumbs := (λ _, false) <$> thumbs in
  match thumb_at thumbs index with
  | Some _ => (<[Z.to_nat index := true]> thumbs, Some (Z.to_nat index))
  | None => (thumbs, scrolled)
  end.

Definition goto (s : gallery) (index : Z) (animate : bool) : gallery :=
  let index := goto_index s index in
  let percentage := - (index * 100) in
  let nav' :=
    match navContainer s with
    | Some thumbs =>
        let r := update_nav thumbs (navScroll s) index in (Some r.1, r.2)
    | None => (None, navScroll s)
    end in
  {| config := config s; items := items s;
     activeIndex := index;
     isDragging := isDragging s; startPos := startPos s;
     currentTranslate := percentage;
     prevTranslate := prevTranslate s;
     track_transition := if animate then TransitionEaseOut else TransitionNone;
     track_transform := TranslateX percentage;
     navContainer := nav'.1; navScroll := nav'.2;
     interval := interval s; timers := timers s;
     nextTimerId := nextTimerId s; hoverListeners := hoverListeners s |}.

Definition next (s : gallery) : gallery := goto s (activeIndex s + 1) true.

Definition prev (s : gallery) : gallery := goto s (activeIndex s - 1) true.

(** ** Touch / swipe (lines 308-373) *)

(** The pointer events the stage listens to: a mouse event carries [pageX],
    a touch event a non-empty [touches] list of [clientX] values. *)
Inductive pointer_event :=
| MouseEvent (pageX : Z)
| TouchEvent (clientX : Z) (others : list Z).

Definition _getPositionX (event : pointer_event) : Z :=
  match event with
  | MouseEvent pageX => pageX
  | TouchEvent clientX _ => clientX
  end.

Definition _touchStart (s : gallery) (event : pointer_event) : gallery :=
  let s := set_isDragging true s in
  let s := set_startPos (_getPositionX event) s in
  set_transition TransitionNone s.

(** [stageWidth] is [this.stage.offsetWidth], read from the layout when the
    event is handled. *)
Definition _touchMove (s : gallery) (event : pointer_event) (stageWidth : Z)
    : gallery :=
  if negb (isDragging s) then s
  else
    let currentPosition := _getPositionX event in
    let diff := currentPosition - startPos s in
    set_transform (TranslateXDrag (activeIndex s) diff stageWidth) s.

(** The class body declares [_touchEnd] twice (lines 333 and 361); the
    second declaration replaces the first, so this is the method every
    listener calls; the first, which began with
    [if (!this.isDragging) return;], is never reached.  The mouseleave
    listener calls it without an event. *)
Definition _touchEnd (s : gallery) (event : option pointer_event) : gallery :=
  let s := set_isDragging false s in
  goto s (activeIndex s) true.

(** ** Autoplay (lines 297-304) *)

(** [this.interval = setInterval(() => this.next(), this.config.autoplay)] *)
Definition setInterval (s : gallery) : gallery :=
  let id := nextTimerId s in
  set_timers (Some id) ({[ id ]} ∪ timers s) (S id) s.

(** [clearInterval(this.interval)] *)
Definition clearInterval (s : gallery) : gallery :=
  match interval s with
  | Some id => set_timers (interval s) (timers s ∖ {[ id ]}) (nextTimerId s) s
  | None => s
  end.

Definition startAutoplay (s : gallery) : gallery :=
  let s := setInterval s in
  set_hoverListeners (S (hoverListeners s)) s.

(** ** Construction (lines 14-37, 90-194) *)

(** An [<img>] found in the container: its [src] and [alt] attributes. *)
Record img := Img {
  img_src : string;
  img_alt : option string;
}.

(** Lines 93-97. *)
Definition item_of_img (i : img) : item :=
  {| src := img_src i; thumb := img_src i;
     alt := default EmptyString (img_alt i) |}.

(** The fields as the constructor and [_initStructure] leave them: one
    slide and, when [config.nav] is set, one strip entry per image. *)
Definition _initStructure (options : Config) (imgElements : list img)
    : gallery :=
  let imgs := item_of_img <$> imgElements in
  {| config := options; items := imgs; activeIndex := 0;
     isDragging := false; startPos := 0;
     currentTranslate := 0; prevTranslate := 0;
     track_transition := TransitionUnset;
     track_transform := TransformUnset;
     navContainer :=
       match nav options with
       | Some _ => Some ((λ _, false) <$> imgs)
       | None => None
       end;
     navScroll := None;
     interval := None; timers := ∅; nextTimerId := 0%nat;
     hoverListeners := 0%nat |}.

Definition _render (s : gallery) : gallery := goto s (activeIndex s) false.

(** [if (this.config.autoplay)]: [false] and [0] do not start the timer. *)
Definition autoplay_on (c : Config) : bool :=
  match autoplay c with
  | Some ms => negb (ms =? 0)
  | None => false
  end.

Definition construct (options : Config) (imgs : list img) : gallery :=
  let s := _render (_initStructure options imgs) in
  if autoplay_on (config s) then startAutoplay s else s.

(** ** Events ([_bindEvents], lines 199-232, and the listeners added in
    [_initStructure] and [startAutoplay]) *)

Inductive key := ArrowLeft | ArrowRight | OtherKey.

Inductive event :=
| StageDown (e : pointer_event)                (* touchstart, mousedown *)
| StageMove (e : pointer_event) (offsetWidth : Z)   (* touchmove, mousemove *)
| StageUp (e : option pointer_event)
    (* touchend, mouseup; [_touchEnd] does not read its event, and a touchend
       may carry no remaining touch ([None]) *)
| StageMouseLeave
| TrackClick
| KeyDown (k : key)
| PrevArrowClick
| NextArrowClick
| NavItemClick (index : nat)
| ElMouseEnter
| ElMouseLeave
| TimerTick (id : nat).

Definition handle (s : gallery) (ev : event) : gallery :=
  match ev with
  | StageDown e => if swipe (config s) then _touchStart s e else s
  | StageMove e w => if swipe (config s) then _touchMove s e w else s
  | StageUp e => if swipe (config s) then _touchEnd s e else s
  | StageMouseLeave =>
      if swipe (config s) then
        if isDragging s then _touchEnd s None else s
      else s
  | TrackClick => if click (config s) then next s else s
  | KeyDown k =>
      if keyboard (config s) then
        match k with
        | ArrowLeft => prev s
        | ArrowRight => next s
        | OtherKey => s
        end
      else s
  | PrevArrowClick => if arrows (config s) then prev s else s
  | NextArrowClick => if arrows (config s) then next s else s
  | NavItemClick index =>
      match navContainer s with
      | Some thumbs =>
          if decide (index < length thumbs)%nat
          then goto s (Z.of_nat index) true else s
      | None => s
      end
  | ElMouseEnter => Nat.iter (hoverListeners s) clearInterval s
  | ElMouseLeave => Nat.iter (hoverListeners s) setInterval s
  | TimerTick id => if decide (id ∈ timers s) then next s else s
  end.

Definition run (s : gallery) (evs : list event) : gallery :=
  fold_left handle evs s.

(** ** Configuration ([defaults] and [_mergeConfig], lines 42-84)

    The configuration objects as JavaScript has them: finite maps from
    property names to values.  [parseInt] is the host's; it is a parameter
    of the model, with [None] for NaN. *)

Module Options.

Inductive value :=
| VUndefined
| VBool (b : bool)
| VNumber (n : option Z)          (* [None] is NaN *)
| VString (s : string).

(** The test [if (x)] on a value. *)
Definition truthy (v : value) : bool :=
  match v with
  | VUndefined => false
  | VBool b => b
  | VNumber None => false
  | VNumber (Some n) => negb (n =? 0)
  | VString EmptyString => false
  | VString _ => true
  end.

(** [static get defaults()] *)
Definition defaults : gmap string value :=
  list_to_map
    [("nav", VString "dots"); ("width", VString "100%");
     ("ratio", VString "16/9"); ("allowfullscreen", VBool false);
     ("loop", VBool false); ("autoplay", VBool false);
     ("arrows", VBool true); ("click", VBool true); ("swipe", VBool true);
     ("keyboard", VBool true); ("thumbwidth", VNumber (Some 80));
     ("thumbheight", VNumber (Some 60))].

(** [dataset.name] when it passes [if (dataset.name)]: the attribute is
    present and not the empty string. *)
Definition attribute (dataset : gmap string string) (name : string)
    : option string :=
  match dataset !! name with
  | Some EmptyString => None
  | Some v => Some v
  | None => None
  end.

(** [if (dataset.name) dataConfig.name = parse(dataset.name)] *)
Definition copy_attribute (dataset : gmap string string) (name : string)
    (parse : string → value) (dataConfig : gmap string value)
    : gmap string value :=
  match attribute dataset name with
  | Some v => <[name := parse v]> dataConfig
  | None => dataConfig
  end.

(** [v === "true"] *)
Definition is_true (v : string) : value := VBool (bool_decide (v = "true")).

(** The attributes [_mergeConfig] maps to configuration keys. *)
Definition data_keys : list string :=
  ["nav"; "width"; "ratio"; "allowfullscreen"; "loop"; "autoplay"; "arrows";
   "thumbwidth"; "thumbheight"].

Section Merge.
Variable parseInt : string → option Z.

(** Lines 64-81. *)
Definition dataConfig (dataset : gmap string string) : gmap string value :=
  let d := copy_attribute dataset "nav" VString ∅ in
  let d := copy_attribute dataset "width" VString d in
  let d := copy_attribute dataset "ratio" VString d in
  let d := copy_attribute dataset "allowfullscreen" is_true d in
  let d := copy_attribute dataset "loop" is_true d in
  let d := copy_attribute dataset "autoplay"
             (λ v, if bool_decide (v = "true") then VNumber (Some 3000)
                   else VNumber (parseInt v)) d in
  let d := copy_attribute dataset "arrows" is_true d in
  let d := copy_attribute dataset "thumbwidth" (λ v, VNumber (parseInt v)) d in
  copy_attribute dataset "thumbheight" (λ v, VNumber (parseInt v)) d.

(** [{ ...PhotoGallery.defaults, ...dataConfig, ...options }]: of two
    objects spread into one, the later wins on the keys they share. *)
Definition _mergeConfig (dataset : gmap string string)
    (options : gmap string value) : gmap string value :=
  options ∪ (dataConfig dataset ∪ defaults).

End Merge.

End Options.

(** ** The stage's aspect ratio ([_initStructure], lines 108-116) *)

(** ["/"].  Texts are strings of bytes; the block looks at no character but
    this one. *)
Definition slash : Ascii.ascii := Ascii.ascii_of_nat 47.

(** [ratio.includes("/")] *)
Fixpoint includes_slash (s : string) : bool :=
  match s with
  | EmptyString => false
  | String c s => if Ascii.eqb c slash then true else includes_slash s
  end.

(** [ratio.split("/")]: the parts between the slashes, at least one. *)
Fixpoint split_slash (s : string) : list string :=
  match s with
  | EmptyString => [EmptyString]
  | String c s =>
      if Ascii.eqb c slash then EmptyString :: split_slash s
      else match split_slash s with
           | part :: parts => String c part :: parts
           | [] => [String c EmptyString]
           end
  end.

(** What the block does for a value of [config.ratio]: it leaves the
    custom property unset, sets it, or raises the TypeError of calling
    [includes] on a value that has no such method. *)
Inductive ratio_outcome :=
| RatioUnset
| RatioSet (property : string)
| RatioTypeError.

(** A template literal prints a missing array element as "undefined". *)
Definition template_part (part : option string) : string :=
  default "undefined" part.

Definition stage_ratio (ratio : Options.value) : ratio_outcome :=
  if Options.truthy ratio then
    match ratio with
    | Options.VString r =>
        if includes_slash r then
          let parts := split_slash r in
          RatioSet (template_part (parts !! 0%nat) +:+ " / " +:+
                    template_part (parts !! 1%nat))
        else RatioSet r
    | _ => RatioTypeError
    end
  else RatioUnset.

(** ** Sequences of calls used in the statements *)

(** A call of [next()] or of [prev()]. *)
Inductive nav_call := CallNext | CallPrev.

Definition nav_step (s : gallery) (c : nav_call) : gallery :=
  match c with
  | CallNext => next s
  | CallPrev => prev s
  end.

(** The instance after each call of a sequence, in order. *)
Fixpoint nav_trace (s : gallery) (calls : list nav_call) : list gallery :=
  match calls with
  | [] => []
  | c :: calls => let s' := nav_step s c in s' :: nav_trace s' calls
  end.

(** [activeIndex] is an index into [items]. *)
Definition valid_index (s : gallery) : Prop :=
  0 <= activeIndex s < items_length s.

(** One drag: the start event, the move samples (each with the stage width
    read at that time), then the end event. *)
Definition drag (s : gallery) (start : pointer_event)
    (moves : list (pointer_event * Z)) (finish : option pointer_event)
    : gallery :=
  _touchEnd (fold_left (λ g m, _touchMove g m.1 m.2) moves (_touchStart s start))
            finish.

(** What [goto] writes for the presentation: the track's transition and
    transform, the cached translate, the strip's active flags and scroll
    target. *)
Definition presentation (s : gallery)
    : css_transition * css_transform * Z * option (list bool) * option nat :=
  (track_transition s, track_transform s, currentTranslate s,
   navContainer s, navScroll s).

(** [goto(this.activeIndex, animate)] *)
Definition regoto (s : gallery) (animate : bool) : gallery :=
  goto s (activeIndex s) animate.

(** *** Instances used as examples *)

Definition photos (n : nat) : list img :=
  replicate n (Img "photo.jpg" (Some "photo")).

Definition looping : Config :=
  {| nav := Some NavDots; loop := true; autoplay := None; arrows := true;
     click := true; swipe := true; keyboard := true |}.

Definition autoplaying : Config :=
  {| nav := Some NavDots; loop := false; autoplay := Some 3000; arrows := true;
     click := true; swipe := true; keyboard := true |}.

(** *** Predicates on instances and events *)

(** Two instances show the same slide: they agree on what [goto] reads. *)
Definition same_slide (g s : gallery) : Prop :=
  config g = config s ∧ items g = items s ∧ activeIndex g = activeIndex s ∧
  navContainer g = navContainer s ∧ navScroll g = navScroll s.

(** The strip has one entry per item (as [_initStructure] builds it). *)
Definition strip_matches (s : gallery) : Prop :=
  match navContainer s with
  | Some thumbs => length thumbs = length (items s)
  | None => True
  end.

(** The events of the container's hover listeners. *)
Definition is_hover (ev : event) : bool :=
  match ev with
  | ElMouseEnter | ElMouseLeave => true
  | _ => false
  end.

(** What one event can do to the instance: nothing, start a drag, write the
    live offset of a drag in progress, end a drag, call [goto], or change the
    timers. *)
Inductive effect_of (s : gallery) : gallery → Prop :=
| effect_none : effect_of s s
| effect_start (e : pointer_event) : effect_of s (_touchStart s e)
| effect_move (diff w : Z) :
    isDragging s = true →
    effect_of s (set_transform (TranslateXDrag (activeIndex s) diff w) s)
| effect_end (e : option pointer_event) : effect_of s (_touchEnd s e)
| effect_goto (index : Z) (animate : bool) : effect_of s (goto s index animate)
| effect_timers (iv : option nat) (live : gset nat) (fresh : nat) :
    effect_of s (set_timers iv live fresh s).

(** The track is where [activeIndex] says: the cached translate is that of
    the active slide, and the transform is either that slide's or, during a
    drag, a live offset from it. *)
Definition track_synced (s : gallery) : Prop :=
  currentTranslate s = - (activeIndex s * 100) ∧
  match track_transform s with
  | TransformUnset => False
  | TranslateX percentage => percentage = - (activeIndex s * 100)
  | TranslateXDrag index _ _ => index = activeIndex s ∧ isDragging s = true
  end.

(** The strip marks the active slide and no other, and was last scrolled to
    it. *)
Definition nav_synced (s : gallery) : Prop :=
  match navContainer s with
  | Some thumbs =>
      thumbs = <[Z.to_nat (activeIndex s) := true]>
                 (replicate (length (items s)) false) ∧
      navScroll s = Some (Z.to_nat (activeIndex s))
  | None => True
  end.

(** The container's mouseenter and mouseleave events of a sequence come in
    turn, given whether the pointer is inside at the start. *)
Fixpoint hover_alternates (inside : bool) (evs : list event) : bool :=
  match evs with
  | [] => true
  | ElMouseEnter :: evs => negb inside && hover_alternates true evs
  | ElMouseLeave :: evs => inside && hover_alternates false evs
  | _ :: evs => hover_alternates inside evs
  end.

(** Whether the pointer is inside the container after the sequence. *)
Fixpoint inside_after (inside : bool) (evs : list event) : bool :=
  match evs with
  | [] => inside
  | ElMouseEnter :: evs => inside_after true evs
  | ElMouseLeave :: evs => inside_after false evs
  | _ :: evs => inside_after inside evs
  end.

(** * Properties *)

(** Splits on the comparisons of [goto_index]. *)
Ltac split_cmp :=
  repeat match goal with
  | |- context [?a >=? ?b] => rewrite (Z.geb_leb a b)
  | |- context [?a <? ?b] => destruct (Z.ltb_spec a b)
  | |- context [?a <=? ?b] => destruct (Z.leb_spec a b)
  end.

(** Splits on the option gates and state tests of [handle]. *)
Ltac handle_cases :=
  cbn [handle]; unfold _touchMove;
  repeat match goal with
  | |- context [if ?b then _ else _] => destruct b
  | |- context [match ?k with ArrowLeft => _ | _ => _ end] => destruct k
  | |- context [match navContainer ?g with _ => _ end] =>
      destruct (navContainer g)
  end.

(** Reads a literal key off the chain of [copy_attribute] calls, given the
    lookup lemma of one call. *)
Ltac lookup_data_key copy_lookup :=
  unfold Options.dataConfig; cbv zeta;
  rewrite !copy_lookup;
  repeat match goal with
  | |- context [decide (?a = ?b)] =>
      match a with String _ _ => idtac end;
      let H := fresh in
      destruct (decide (a = b)) as [H|H];
      [try discriminate H | try (exfalso; apply H; reflexivity)];
      clear H
  end.

(** ** What [goto] leaves alone *)

Section GotoFrame.
Context (s : gallery) (index : Z) (animate : bool).

Lemma goto_config : config (goto s index animate) = config s.
Proof. reflexivity. Qed.

Lemma goto_items : items (goto s index animate) = items s.
Proof. reflexivity. Qed.

Lemma goto_items_length :
  items_length (goto s index animate) = items_length s.
Proof. reflexivity. Qed.

Lemma goto_activeIndex :
  activeIndex (goto s index animate) = goto_index s index.
Proof. reflexivity. Qed.

Lemma goto_isDragging : isDragging (goto s index animate) = isDragging s.
Proof. reflexivity. Qed.

Lemma goto_timers :
  timers (goto s index animate) = timers s ∧
  interval (goto s index animate) = interval s.
Proof. split; reflexivity. Qed.
End GotoFrame.

Lemma next_activeIndex (s : gallery) :
  activeIndex (next s) = goto_index s (activeIndex s + 1).
Proof. reflexivity. Qed.

Lemma prev_activeIndex (s : gallery) :
  activeIndex (prev s) = goto_index s (activeIndex s - 1).
Proof. reflexivity. Qed.

(** ** The resolved index *)

Lemma goto_index_loop (s : gallery) (index : Z) :
  loop (config s) = true → 1 <= items_length s →
  goto_index s index =
    if index <? 0 then items_length s - 1
    else if index >=? items_length s then 0 else index.
Proof.
  intros Hloop HN. unfold goto_index. rewrite Hloop.
  split_cmp; lia.
Qed.

Lemma goto_index_clamp (s : gallery) (index : Z) :
  loop (config s) = false → 1 <= items_length s →
  goto_index s index = Z.max 0 (Z.min (items_length s - 1) index).
Proof.
  intros Hloop HN. unfold goto_index. rewrite Hloop.
  split_cmp; lia.
Qed.

Lemma goto_index_range (s : gallery) (index : Z) :
  1 <= items_length s → 0 <= goto_index s index < items_length s.
Proof.
  intros HN. unfold goto_index.
  destruct (loop (config s)); split_cmp; lia.
Qed.

Lemma goto_index_valid (s : gallery) (index : Z) :
  0 <= index < items_length s → goto_index s index = index.
Proof.
  intros Hi. unfold goto_index.
  destruct (loop (config s)); split_cmp; lia.
Qed.

Lemma goto_valid (s : gallery) (index : Z) (animate : bool) :
  1 <= items_length s → valid_index (goto s index animate).
Proof.
  intros HN. unfold valid_index.
  rewrite goto_activeIndex, goto_items_length. apply goto_index_range, HN.
Qed.

Lemma nav_step_valid (s : gallery) (c : nav_call) :
  1 <= items_length s → valid_index (nav_step s c).
Proof. intros HN. destruct c; apply goto_valid, HN. Qed.

Lemma nav_step_items_length (s : gallery) (c : nav_call) :
  items_length (nav_step s c) = items_length s.
Proof. destruct c; reflexivity. Qed.

Lemma iter_next_frame (s : gallery) (k : nat) :
  items_length (Nat.iter k next s) = items_length s ∧
  config (Nat.iter k next s) = config s.
Proof.
  induction k as [|k [IHl IHc]]; [split; reflexivity |].
  rewrite Nat.iter_succ. split.
  - rewrite <- IHl. reflexivity.
  - rewrite <- IHc. reflexivity.
Qed.

(** ** Navigation claims *)

(** C2. With at least one item, in Clamp and in Loop mode alike, after every
    call of a finite sequence of [next()]/[prev()] calls started from a
    valid index, [activeIndex] is an index into [items], and the number of
    items is what it was. *)
Theorem nav_calls_keep_index_valid (s : gallery) (calls : list nav_call) :
  1 <= items_length s → valid_index s →
  Forall (λ g, 0 <= activeIndex g <= items_length s - 1) (nav_trace s calls).
Proof.
  intros HN _. revert s HN.
  induction calls as [|c calls IH]; intros s HN; cbn [nav_trace].
  - constructor.
  - constructor.
    + pose proof (nav_step_valid s c HN) as Hv. unfold valid_index in Hv.
      rewrite nav_step_items_length in Hv. lia.
    + rewrite <- (nav_step_items_length s c). apply IH.
      rewrite nav_step_items_length. exact HN.
Qed.

Lemma nav_calls_keep_index_valid_witness :
  let s := construct looping (photos 3) in
  let calls := [CallNext; CallNext; CallNext; CallPrev; CallPrev] in
  1 <= items_length s ∧ valid_index s ∧
  Forall (λ g, 0 <= activeIndex g <= items_length s - 1) (nav_trace s calls) ∧
  activeIndex <$> nav_trace s calls = [1; 2; 0; 2; 1].
Proof.
  cbv zeta.
  assert (H1 : 1 <= items_length (construct looping (photos 3)))
    by (vm_compute; discriminate).
  assert (H2 : valid_index (construct looping (photos 3)))
    by (split; vm_compute; [discriminate | reflexivity]).
  split; [exact H1 |]. split; [exact H2 |].
  split; [| reflexivity].
  exact (nav_calls_keep_index_valid _ _ H1 H2).
Defined.

(** C3. In Loop mode with at least one item, [goto] stores the last index
    for every negative request and index 0 for every request at or past the
    number of items; on five items [goto(-1)] stores 4 and [goto(5)] stores
    0. *)
Theorem goto_loop_wraps (s : gallery) (index : Z) (animate : bool) :
  loop (config s) = true → 1 <= items_length s →
  (index < 0 → activeIndex (goto s index animate) = items_length s - 1) ∧
  (items_length s <= index → activeIndex (goto s index animate) = 0).
Proof.
  intros Hloop HN. rewrite goto_activeIndex, goto_index_loop by assumption.
  split; intros Hi; split_cmp; lia.
Qed.

Lemma goto_loop_wraps_witness :
  let s := construct looping (photos 5) in
  loop (config s) = true ∧ 1 <= items_length s ∧
  activeIndex (goto s (-1) true) = 4 ∧ activeIndex (goto s 5 true) = 0.
Proof.
  cbv zeta.
  assert (H1 : loop (config (construct looping (photos 5))) = true)
    by reflexivity.
  assert (H2 : 1 <= items_length (construct looping (photos 5)))
    by (vm_compute; discriminate).
  split; [exact H1 |]. split; [exact H2 |]. split.
  - apply (goto_loop_wraps _ (-1) true H1 H2). lia.
  - apply (goto_loop_wraps _ 5 true H1 H2). vm_compute; discriminate.
Defined.

(** C4. In Clamp mode with at least one item, [goto] stores
    [max(0, min(N-1, index))] for every integer request; [goto(-1)] stores 0,
    [goto(N)] stores [N-1], and any number of [next()] calls made at the last
    index leave [activeIndex] at [N-1]. *)
Theorem goto_clamps (s : gallery) (index : Z) (animate : bool) (k : nat) :
  loop (config s) = false → 1 <= items_length s →
  activeIndex (goto s index animate) =
    Z.max 0 (Z.min (items_length s - 1) index) ∧
  activeIndex (goto s (-1) animate) = 0 ∧
  activeIndex (goto s (items_length s) animate) = items_length s - 1 ∧
  (activeIndex s = items_length s - 1 →
   activeIndex (Nat.iter k next s) = items_length s - 1).
Proof.
  intros Hloop HN. rewrite !goto_activeIndex.
  rewrite !goto_index_clamp by assumption.
  repeat split; try lia.
  intros Hlast. induction k as [|k IH]; [exact Hlast |].
  rewrite Nat.iter_succ. destruct (iter_next_frame s k) as [Hl Hc].
  rewrite next_activeIndex, goto_index_clamp.
  - rewrite Hl, IH. lia.
  - rewrite Hc. exact Hloop.
  - rewrite Hl. exact HN.
Qed.

Lemma goto_clamps_witness :
  let s := goto (construct defaults (photos 4)) 3 true in
  loop (config s) = false ∧ 1 <= items_length s ∧
  activeIndex s = items_length s - 1 ∧
  activeIndex (goto s 7 false) = 3 ∧
  activeIndex (Nat.iter 6 next s) = 3.
Proof.
  cbv zeta.
  set (s := goto (construct defaults (photos 4)) 3 true).
  assert (H1 : loop (config s) = false) by reflexivity.
  assert (H2 : 1 <= items_length s) by (vm_compute; discriminate).
  assert (H3 : activeIndex s = items_length s - 1) by reflexivity.
  split; [exact H1 |]. split; [exact H2 |]. split; [exact H3 |].
  destruct (goto_clamps s 7 false 6 H1 H2) as (Hg & _ & _ & Hn).
  split; [exact Hg | exact (Hn H3)].
Defined.

(** C10. In Loop mode with at least one item and a valid index, [next()]
    followed by [prev()] restores [activeIndex], also when [next()] wraps
    from the last item to the first. *)
Theorem loop_next_prev_restores (s : gallery) :
  loop (config s) = true → 1 <= items_length s → valid_index s →
  activeIndex (prev (next s)) = activeIndex s.
Proof.
  intros Hloop HN Hv. unfold valid_index in Hv.
  assert (Hnext : activeIndex (next s) =
                  if items_length s <=? activeIndex s + 1 then 0
                  else activeIndex s + 1).
  { rewrite next_activeIndex, goto_index_loop by assumption.
    split_cmp; lia. }
  rewrite prev_activeIndex, (goto_index_loop (next s)) by assumption.
  change (items_length (next s)) with (items_length s).
  destruct (Z.leb_spec (items_length s) (activeIndex s + 1));
    rewrite Hnext; split_cmp; lia.
Qed.

Lemma loop_next_prev_restores_witness :
  let s := goto (construct looping (photos 3)) 2 true in
  loop (config s) = true ∧ 1 <= items_length s ∧ valid_index s ∧
  activeIndex s = 2 ∧ activeIndex (next s) = 0 ∧
  activeIndex (prev (next s)) = activeIndex s.
Proof.
  cbv zeta.
  set (s := goto (construct looping (photos 3)) 2 true).
  assert (H1 : loop (config s) = true) by reflexivity.
  assert (H2 : 1 <= items_length s) by (vm_compute; discriminate).
  assert (H3 : valid_index s)
    by (split; vm_compute; [discriminate | reflexivity]).
  split; [exact H1 |]. split; [exact H2 |]. split; [exact H3 |].
  split; [reflexivity |]. split; [reflexivity |].
  exact (loop_next_prev_restores s H1 H2 H3).
Defined.

(** ** Repeating [goto] at the current index *)

Lemma fmap_const_length {A B} (b : B) (l1 l2 : list A) :
  length l1 = length l2 →
  (λ _, b) <$> l1 = (λ _, b) <$> l2.
Proof.
  revert l2. induction l1 as [|x l1 IH]; intros [|y l2] Hlen;
    try discriminate; [reflexivity |].
  cbn. f_equal. apply IH. cbn in Hlen. congruence.
Qed.

Lemma update_nav_again (thumbs : list bool) (scrolled : option nat) (index : Z) :
  update_nav (update_nav thumbs scrolled index).1
             (update_nav thumbs scrolled index).2 index =
  update_nav thumbs scrolled index.
Proof.
  unfold update_nav.
  set (cleared := (λ _, false) <$> thumbs).
  destruct (thumb_at cleared index) as [b|] eqn:Hat; cbn [fst snd].
  - assert (Hc : (λ _ : bool, false) <$> <[Z.to_nat index:=true]> cleared
                 = cleared).
    { unfold cleared. apply fmap_const_length.
      rewrite length_insert, length_fmap. reflexivity. }
    rewrite Hc, Hat. reflexivity.
  - assert (Hc : (λ _ : bool, false) <$> cleared = cleared).
    { unfold cleared. apply fmap_const_length, length_fmap. }
    rewrite Hc, Hat. reflexivity.
Qed.

Lemma goto_again (s : gallery) (index : Z) (a1 a2 : bool) :
  0 <= index < items_length s →
  goto (goto s index a1) index a2 = goto s index a2.
Proof.
  intros Hi. unfold goto at 1.
  assert (Hidx : goto_index (goto s index a1) index = index).
  { apply goto_index_valid. rewrite goto_items_length. exact Hi. }
  rewrite Hidx. unfold goto. rewrite (goto_index_valid s index Hi).
  cbn [config items isDragging startPos prevTranslate interval timers
       nextTimerId hoverListeners navContainer navScroll].
  destruct (navContainer s) as [thumbs|]; cbn [fst snd]; [| reflexivity].
  rewrite update_nav_again. reflexivity.
Qed.

Lemma regoto_absorbs (s : gallery) (a1 a2 : bool) :
  valid_index s → regoto (regoto s a1) a2 = regoto s a2.
Proof.
  intros Hv. unfold regoto.
  rewrite goto_activeIndex, (goto_index_valid s _ Hv).
  apply goto_again, Hv.
Qed.

Lemma regoto_valid (s : gallery) (animate : bool) :
  valid_index s → valid_index (regoto s animate).
Proof.
  intros Hv. unfold valid_index, regoto.
  rewrite goto_activeIndex, goto_items_length, (goto_index_valid s _ Hv).
  exact Hv.
Qed.

Lemma regoto_fold (flags : list bool) (animate : bool) (s : gallery) :
  valid_index s →
  fold_left regoto (flags ++ [animate]) s = regoto s animate.
Proof.
  revert s. induction flags as [|a flags IH]; intros s Hv; [reflexivity |].
  cbn [app fold_left]. rewrite IH by (apply regoto_valid, Hv).
  apply regoto_absorbs, Hv.
Qed.

(** C9. With at least one item and a valid index, however often
    [goto(activeIndex)] is repeated, [activeIndex] stays what it was and the
    last call writes the same presentation as a single call does: the
    transform for that index, the same strip highlight and scroll target. *)
Theorem goto_active_idempotent (s : gallery) (flags : list bool)
    (animate : bool) :
  1 <= items_length s → valid_index s →
  let r := fold_left regoto (flags ++ [animate]) s in
  activeIndex r = activeIndex s ∧
  presentation r = presentation (regoto s animate) ∧
  track_transform r = TranslateX (- (activeIndex s * 100)) ∧
  track_transition r = (if animate then TransitionEaseOut else TransitionNone) ∧
  regoto r animate = r.
Proof.
  intros HN Hv r. subst r. rewrite regoto_fold by exact Hv.
  assert (Ha : activeIndex (regoto s animate) = activeIndex s).
  { unfold regoto. rewrite goto_activeIndex. apply goto_index_valid, Hv. }
  split; [exact Ha |]. split; [reflexivity |]. split.
  - unfold regoto, goto. cbn [track_transform].
    rewrite (goto_index_valid s _ Hv). reflexivity.
  - split; [reflexivity |]. apply regoto_absorbs, Hv.
Qed.

Lemma goto_active_idempotent_witness :
  let s := goto (construct defaults (photos 4)) 2 true in
  let r := fold_left regoto [true; true; true] s in
  1 <= items_length s ∧ valid_index s ∧
  activeIndex r = 2 ∧
  presentation r =
    (TransitionEaseOut, TranslateX (-200), -200,
     Some [false; false; true; false], Some 2%nat) ∧
  presentation (regoto s true) = presentation r.
Proof.
  cbv zeta.
  set (s := goto (construct defaults (photos 4)) 2 true).
  assert (H1 : 1 <= items_length s) by (vm_compute; discriminate).
  assert (H2 : valid_index s)
    by (split; vm_compute; [discriminate | reflexivity]).
  split; [exact H1 |]. split; [exact H2 |].
  destruct (goto_active_idempotent s [true; true] true H1 H2)
    as (Ha & Hp & _).
  split; [exact Ha |]. split; [reflexivity |].
  symmetry. exact Hp.
Defined.

(** ** Dragging *)

Lemma set_transform_same (s : gallery) :
  set_transform (track_transform s) s = s.
Proof. destruct s; reflexivity. Qed.

(** C8. [_touchMove] never changes [activeIndex]: whatever the position
    sample, the only field it may write is the track's transform (the live
    offset of the drag); and while no drag is in progress it changes
    nothing at all.  The same holds for the move event as dispatched. *)
Theorem touchMove_keeps_activeIndex (s : gallery) (event : pointer_event)
    (stageWidth : Z) :
  activeIndex (_touchMove s event stageWidth) = activeIndex s ∧
  activeIndex (handle s (StageMove event stageWidth)) = activeIndex s ∧
  set_transform (track_transform s) (_touchMove s event stageWidth) = s ∧
  (isDragging s = false → _touchMove s event stageWidth = s).
Proof.
  unfold handle, _touchMove.
  destruct (swipe (config s)), (isDragging s); cbn [negb];
    repeat split; try reflexivity; try discriminate;
    try apply set_transform_same;
    unfold set_transform; cbn; destruct s; reflexivity.
Qed.

Lemma touchMove_keeps_activeIndex_witness :
  let idle := goto (construct defaults (photos 5)) 2 true in
  let dragging := _touchStart idle (TouchEvent 100 []) in
  isDragging idle = false ∧
  _touchMove idle (TouchEvent 40 []) 400 = idle ∧
  isDragging dragging = true ∧
  activeIndex (_touchMove dragging (TouchEvent 40 []) 400) = 2 ∧
  track_transform (_touchMove dragging (TouchEvent 40 []) 400) =
    TranslateXDrag 2 (-60) 400.
Proof.
  cbv zeta.
  set (idle := goto (construct defaults (photos 5)) 2 true).
  assert (Hidle : isDragging idle = false) by reflexivity.
  split; [exact Hidle |]. split.
  - destruct (touchMove_keeps_activeIndex idle (TouchEvent 40 []) 400)
      as (_ & _ & _ & Hnoop).
    exact (Hnoop Hidle).
  - split; [reflexivity |]. split; [| reflexivity].
    destruct (touchMove_keeps_activeIndex (_touchStart idle (TouchEvent 100 []))
                (TouchEvent 40 []) 400) as (Ha & _).
    exact Ha.
Defined.

Lemma touchStart_same_slide (s : gallery) (event : pointer_event) :
  same_slide (_touchStart s event) s.
Proof. repeat split. Qed.

Lemma touchMove_same_slide (g s : gallery) (event : pointer_event) (w : Z) :
  same_slide g s → same_slide (_touchMove g event w) s.
Proof.
  intros H. unfold _touchMove. destruct (isDragging g); cbn [negb];
    [| exact H].
  exact H.
Qed.

Lemma moves_same_slide (moves : list (pointer_event * Z)) (g s : gallery) :
  same_slide g s →
  same_slide (fold_left (λ g m, _touchMove g m.1 m.2) moves g) s.
Proof.
  revert g. induction moves as [|m moves IH]; intros g H; [exact H |].
  cbn [fold_left]. apply IH, touchMove_same_slide, H.
Qed.

Lemma touchEnd_same_slide (g s : gallery) (event : option pointer_event) :
  same_slide g s →
  activeIndex (_touchEnd g event) = goto_index s (activeIndex s) ∧
  presentation (_touchEnd g event) = presentation (regoto s true) ∧
  isDragging (_touchEnd g event) = false.
Proof.
  intros (Hc & Hi & Ha & Hn & Hs).
  unfold _touchEnd, regoto, presentation, goto, goto_index, items_length.
  cbn [config items activeIndex navContainer navScroll set_isDragging
       track_transition track_transform currentTranslate isDragging].
  rewrite Hc, Hi, Ha, Hn, Hs. repeat split.
Qed.

(** C1, as the code has it.  [_touchEnd] never commits a drag: whatever the
    start position, the move samples and the end event, it ends the drag and
    calls [goto(activeIndex)]; from a valid index the index is the one the
    drag started on, and the presentation is the animated snap back to that
    slide.  [next()] and [prev()] are not called. *)
Theorem touchEnd_snaps_back (s : gallery) (start : pointer_event)
    (moves : list (pointer_event * Z)) (finish : option pointer_event) :
  valid_index s →
  let r := drag s start moves finish in
  activeIndex r = activeIndex s ∧
  isDragging r = false ∧
  presentation r = presentation (goto s (activeIndex s) true).
Proof.
  intros Hv r. subst r. unfold drag.
  destruct (touchEnd_same_slide
              (fold_left (λ g m, _touchMove g m.1 m.2) moves
                         (_touchStart s start)) s finish
              (moves_same_slide moves _ s (touchStart_same_slide s start)))
    as (Ha & Hp & Hd).
  rewrite Ha, (goto_index_valid s _ Hv). repeat split; assumption.
Qed.

Lemma touchEnd_snaps_back_witness :
  let s := goto (construct defaults (photos 5)) 2 true in
  let r := drag s (TouchEvent 100 []) [(TouchEvent 40 [], 400)] None in
  valid_index s ∧ activeIndex s = 2 ∧ activeIndex r = 2 ∧
  isDragging r = false ∧ track_transform r = TranslateX (-200).
Proof.
  cbv zeta.
  set (s := goto (construct defaults (photos 5)) 2 true).
  assert (Hv : valid_index s)
    by (split; vm_compute; [discriminate | reflexivity]).
  split; [exact Hv |]. split; [reflexivity |].
  destruct (touchEnd_snaps_back s (TouchEvent 100 [])
              [(TouchEvent 40 [], 400)] None Hv) as (Ha & Hd & _).
  split; [exact Ha |]. split; [exact Hd | reflexivity].
Defined.

(** C1, counterexample.  Five items, Clamp mode, slide 2 shown; a drag from
    position 100 to position 40 (60 px to the left, past the 50 px the claim
    names) is ended.  The claim has [next()] called and index 3 stored; the
    code stores 2. *)
Lemma drag_past_threshold_does_not_commit :
  let s := goto (construct defaults (photos 5)) 2 true in
  let r := run s [StageDown (TouchEvent 100 []);
                  StageMove (TouchEvent 40 []) 400;
                  StageUp None] in
  loop (config s) = false ∧ 3 < items_length s ∧ activeIndex s = 2 ∧
  50 <= Z.abs (40 - 100) ∧ 40 - 100 < 0 ∧
  activeIndex (next s) = 3 ∧
  activeIndex r = 2 ∧ activeIndex r ≠ 3.
Proof.
  cbv zeta. repeat split; try reflexivity; try (vm_compute; discriminate).
Qed.

(** C7, at the failing input.  A freshly constructed three-item instance is
    idle and its track has transition "none"; an end event arriving then
    (a mouseup with no mousedown before it) is not ignored: [_touchEnd] runs
    [goto], which rewrites the track's transition and transform and the
    strip.  [_touchMove] in the same state changes nothing. *)
Lemma touchEnd_while_idle_is_not_ignored :
  let s := construct defaults (photos 3) in
  let r := handle s (StageUp (Some (MouseEvent 10))) in
  isDragging s = false ∧
  r = goto s (activeIndex s) true ∧
  track_transition s = TransitionNone ∧
  track_transition r = TransitionEaseOut ∧
  r ≠ s ∧
  handle s (StageMove (MouseEvent 10) 400) = s.
Proof.
  cbv zeta. repeat split; try reflexivity.
  intros H. apply (f_equal track_transition) in H. discriminate H.
Qed.

(** ** No items *)

Lemma construct_strip_matches (options : Config) (imgs : list img) :
  strip_matches (_initStructure options imgs).
Proof.
  unfold strip_matches, _initStructure. cbn [navContainer items].
  destruct (nav options); [| exact I]. apply length_fmap.
Qed.

(** With no items the index [goto] stores is never an index of a slide. *)
Lemma goto_index_empty (s : gallery) (index : Z) :
  items_length s = 0 →
  goto_index s index =
    if loop (config s) then (if index <? 0 then -1 else 0) else -1.
Proof.
  intros HN. unfold goto_index. rewrite HN.
  destruct (loop (config s)); split_cmp; lia.
Qed.

Lemma update_nav_empty (scrolled : option nat) (index : Z) :
  update_nav [] scrolled index = ([], scrolled).
Proof.
  unfold update_nav, thumb_at. cbn [fmap list_fmap].
  destruct (index <? 0); reflexivity.
Qed.

(** C5, as the code has it.  With no items [goto] has no guard: for every
    requested index it still runs to its end (no step of it can raise) and
    still issues the presentation instruction, writing the track's
    transition for [animate] and the transform and cached translate of the
    index it stores; the drag state and the timers are untouched, and the
    (empty) strip gets no highlight and no scroll.  [next()] and [prev()]
    are such calls. *)
Theorem goto_empty_still_presents (s : gallery) (index : Z) (animate : bool) :
  items_length s = 0 → strip_matches s →
  let r := goto s index animate in
  track_transition r = (if animate then TransitionEaseOut else TransitionNone) ∧
  track_transform r = TranslateX (- (activeIndex r * 100)) ∧
  currentTranslate r = - (activeIndex r * 100) ∧
  navContainer r = navContainer s ∧ navScroll r = navScroll s ∧
  isDragging r = isDragging s ∧ timers r = timers s ∧
  items_length r = 0 ∧
  track_transition (next s) = TransitionEaseOut ∧
  track_transition (prev s) = TransitionEaseOut.
Proof.
  intros HN Hstrip r. subst r.
  assert (Hnav : navContainer (goto s index animate) = navContainer s ∧
                 navScroll (goto s index animate) = navScroll s).
  { unfold goto, strip_matches in *. cbn [navContainer navScroll].
    destruct (navContainer s) as [thumbs|]; cbn [fst snd];
      [| split; reflexivity].
    assert (thumbs = []) as ->.
    { apply length_zero_iff_nil. unfold items_length in HN. lia. }
    rewrite update_nav_empty. split; reflexivity. }
  destruct Hnav as [Hn Hs].
  repeat split; try reflexivity; assumption.
Qed.

Lemma goto_empty_still_presents_witness :
  let s := construct defaults [] in
  items_length s = 0 ∧ strip_matches s ∧
  track_transition s = TransitionNone ∧
  track_transition (goto s 0 true) = TransitionEaseOut ∧
  track_transform (goto s 0 true) =
    TranslateX (- (activeIndex (goto s 0 true) * 100)).
Proof.
  cbv zeta.
  assert (H1 : items_length (construct defaults []) = 0) by reflexivity.
  assert (H2 : strip_matches (construct defaults [])) by reflexivity.
  split; [exact H1 |]. split; [exact H2 |]. split; [reflexivity |].
  destruct (goto_empty_still_presents (construct defaults []) 0 true H1 H2)
    as (Ht & Hx & _).
  split; [exact Ht | exact Hx].
Defined.

(** C5, counterexample.  An instance constructed in Loop mode over no image
    has [activeIndex] 0 and the track at 0%; [prev()] then stores -1 and
    moves the track to 100%.  In Clamp mode the first [goto], the one the
    constructor makes through [_render], already does so. *)
Lemma goto_empty_is_not_a_noop :
  let s := construct looping [] in
  let c := _initStructure defaults [] in
  items_length s = 0 ∧ activeIndex s = 0 ∧
  track_transform s = TranslateX 0 ∧
  activeIndex (prev s) = -1 ∧
  track_transform (prev s) = TranslateX 100 ∧
  prev s ≠ s ∧
  items_length c = 0 ∧ activeIndex c = 0 ∧
  activeIndex (goto c 0 false) = -1 ∧
  track_transform c = TransformUnset ∧
  track_transform (goto c 0 false) = TranslateX 100.
Proof.
  cbv zeta. repeat split; try reflexivity.
  intros H. apply (f_equal activeIndex) in H. discriminate H.
Qed.

(** ** Autoplay *)

Lemma touchStart_timers (s : gallery) (e : pointer_event) :
  timers (_touchStart s e) = timers s ∧ interval (_touchStart s e) = interval s.
Proof. split; reflexivity. Qed.

Lemma touchMove_timers (s : gallery) (e : pointer_event) (w : Z) :
  timers (_touchMove s e w) = timers s ∧ interval (_touchMove s e w) = interval s.
Proof. unfold _touchMove. destruct (isDragging s); split; reflexivity. Qed.

Lemma touchEnd_timers (s : gallery) (e : option pointer_event) :
  timers (_touchEnd s e) = timers s ∧ interval (_touchEnd s e) = interval s.
Proof. split; reflexivity. Qed.

Lemma handle_timers (s : gallery) (ev : event) :
  is_hover ev = false →
  timers (handle s ev) = timers s ∧ interval (handle s ev) = interval s.
Proof.
  intros Hev. destruct ev; try discriminate Hev; cbn [handle];
    repeat match goal with
    | |- context [if ?b then _ else _] => destruct b
    | |- context [match ?k with ArrowLeft => _ | _ => _ end] => destruct k
    | |- context [match navContainer ?g with _ => _ end] =>
        destruct (navContainer g)
    end;
    auto using touchStart_timers, touchMove_timers, touchEnd_timers,
               goto_timers.
Qed.

Lemma clearInterval_iter (n : nat) (s : gallery) (id : nat) :
  n ≠ 0%nat → interval s = Some id →
  id ∉ timers (Nat.iter n clearInterval s).
Proof.
  intros Hn Hid.
  assert (Hkeep : ∀ k, interval (Nat.iter k clearInterval s) = Some id).
  { induction k as [|k IH]; [exact Hid |].
    rewrite Nat.iter_succ. unfold clearInterval at 1. rewrite IH.
    reflexivity. }
  destruct n as [|n]; [congruence |].
  rewrite Nat.iter_succ. unfold clearInterval at 1. rewrite Hkeep.
  cbn [timers set_timers]. rewrite elem_of_difference, elem_of_singleton.
  tauto.
Qed.

Lemma setInterval_iter (n : nat) (s : gallery) :
  n ≠ 0%nat →
  ∃ id, interval (Nat.iter n setInterval s) = Some id ∧
        id ∈ timers (Nat.iter n setInterval s).
Proof.
  intros Hn. destruct n as [|n]; [congruence |].
  rewrite Nat.iter_succ. eexists. split; [reflexivity |].
  cbn [timers setInterval set_timers].
  apply elem_of_union_l, elem_of_singleton. reflexivity.
Qed.

(** C6, as the code has it.  A drag has no effect on the autoplay timer:
    no event other than the container's mouseenter and mouseleave changes
    the scheduled timers or the stored handle, and a tick of a scheduled
    timer calls [next()] whether or not a drag is in progress (a tick of a
    cleared timer does nothing).  The timer is paused by hover alone: once
    [startAutoplay] has run, mouseenter clears the stored handle's timer and
    mouseleave schedules a new one. *)
Theorem autoplay_pauses_on_hover_only (s : gallery) (ev : event) (id : nat) :
  (is_hover ev = false →
   timers (handle s ev) = timers s ∧ interval (handle s ev) = interval s) ∧
  (id ∈ timers s → handle s (TimerTick id) = next s) ∧
  (id ∉ timers s → handle s (TimerTick id) = s) ∧
  (hoverListeners s ≠ 0%nat → interval s = Some id →
   id ∉ timers (handle s ElMouseEnter)) ∧
  (hoverListeners s ≠ 0%nat →
   ∃ id', interval (handle s ElMouseLeave) = Some id' ∧
          id' ∈ timers (handle s ElMouseLeave)).
Proof.
  split; [apply handle_timers |].
  split; [intros Hin; cbn [handle]; rewrite decide_True by exact Hin;
          reflexivity |].
  split; [intros Hout; cbn [handle]; rewrite decide_False by exact Hout;
          reflexivity |].
  split.
  - intros Hn Hid. cbn [handle]. apply clearInterval_iter; assumption.
  - intros Hn. cbn [handle]. apply setInterval_iter, Hn.
Qed.

Lemma autoplay_pauses_on_hover_only_witness :
  let s := construct autoplaying (photos 3) in
  let d := handle s (StageDown (TouchEvent 100 [])) in
  is_hover (StageDown (TouchEvent 100 [])) = false ∧
  hoverListeners d ≠ 0%nat ∧ interval d = Some 0%nat ∧
  timers d = timers s ∧
  0%nat ∈ timers d ∧
  handle d (TimerTick 0) = next d ∧
  0%nat ∉ timers (handle d ElMouseEnter).
Proof.
  cbv zeta.
  set (s := construct autoplaying (photos 3)).
  set (ev := StageDown (TouchEvent 100 [])).
  assert (H1 : is_hover ev = false) by reflexivity.
  assert (H2 : hoverListeners (handle s ev) ≠ 0%nat) by discriminate.
  assert (H3 : interval (handle s ev) = Some 0%nat) by reflexivity.
  assert (H4 : 0%nat ∈ timers (handle s ev))
    by (apply elem_of_union_l, elem_of_singleton; reflexivity).
  split; [exact H1 |]. split; [exact H2 |]. split; [exact H3 |].
  destruct (autoplay_pauses_on_hover_only s ev 0) as (Hframe & _).
  split; [exact (proj1 (Hframe H1)) |]. split; [exact H4 |].
  destruct (autoplay_pauses_on_hover_only (handle s ev) ev 0)
    as (_ & Htick & _ & Henter & _).
  split; [exact (Htick H4) | exact (Henter H2 H3)].
Defined.

(** C6, counterexample.  Autoplay is configured on three items; a touch
    drag begins (no mouseenter reaches the container); the interval timer 0
    is still scheduled, and its tick, handled while the drag is in progress,
    calls [next()] and moves [activeIndex] from 0 to 1. *)
Lemma tick_during_drag_advances :
  let s := construct autoplaying (photos 3) in
  let d := handle s (StageDown (TouchEvent 100 [])) in
  let t := handle d (TimerTick 0) in
  isDragging d = true ∧ 0%nat ∈ timers d ∧
  activeIndex d = 0 ∧ t = next d ∧ isDragging t = true ∧ activeIndex t = 1.
Proof.
  cbv zeta.
  set (d := handle (construct autoplaying (photos 3))
                   (StageDown (TouchEvent 100 []))).
  assert (Hin : 0%nat ∈ timers d)
    by (apply elem_of_union_l, elem_of_singleton; reflexivity).
  assert (Htick : handle d (TimerTick 0) = next d)
    by (cbn [handle]; rewrite decide_True by exact Hin; reflexivity).
  split; [reflexivity |]. split; [exact Hin |]. split; [reflexivity |].
  split; [exact Htick |]. rewrite Htick. split; reflexivity.
Qed.

(** * Further properties of the event handlers *)

(** ** What an event can do *)

Lemma set_timers_same (s : gallery) :
  set_timers (interval s) (timers s) (nextTimerId s) s = s.
Proof. destruct s; reflexivity. Qed.

Lemma hover_iter_timers (f : gallery → gallery) (n : nat) (s : gallery) :
  (∀ g, ∃ iv live fresh, f g = set_timers iv live fresh g) →
  ∃ iv live fresh, Nat.iter n f s = set_timers iv live fresh s.
Proof.
  intros Hf. induction n as [|n (iv & live & fresh & IH)].
  - exists (interval s), (timers s), (nextTimerId s).
    symmetry. apply set_timers_same.
  - rewrite Nat.iter_succ, IH.
    destruct (Hf (set_timers iv live fresh s)) as (iv' & live' & fresh' & ->).
    exists iv', live', fresh'. reflexivity.
Qed.

Lemma clearInterval_timers (g : gallery) :
  ∃ iv live fresh, clearInterval g = set_timers iv live fresh g.
Proof.
  unfold clearInterval. destruct (interval g) as [id|] eqn:Hi.
  - eexists _, _, _. reflexivity.
  - exists None, (timers g), (nextTimerId g).
    rewrite <- Hi. symmetry. apply set_timers_same.
Qed.

Lemma setInterval_timers (g : gallery) :
  ∃ iv live fresh, setInterval g = set_timers iv live fresh g.
Proof. eexists _, _, _. reflexivity. Qed.

Lemma handle_effect (s : gallery) (ev : event) : effect_of s (handle s ev).
Proof.
  destruct ev as [e|e w|e| | |k| | |index| | |id]; cbn [handle].
  - destruct (swipe (config s)); constructor.
  - destruct (swipe (config s)); [| constructor].
    unfold _touchMove. destruct (isDragging s) eqn:Hd; cbn [negb];
      [apply effect_move, Hd | constructor].
  - destruct (swipe (config s)); constructor.
  - destruct (swipe (config s)), (isDragging s); constructor.
  - destruct (click (config s)); constructor.
  - destruct (keyboard (config s)), k; constructor.
  - destruct (arrows (config s)); constructor.
  - destruct (arrows (config s)); constructor.
  - destruct (navContainer s) as [thumbs|]; [| constructor].
    destruct (decide (index < length thumbs)%nat); constructor.
  - destruct (hover_iter_timers clearInterval (hoverListeners s) s
                clearInterval_timers) as (iv & live & fresh & ->).
    constructor.
  - destruct (hover_iter_timers setInterval (hoverListeners s) s
                setInterval_timers) as (iv & live & fresh & ->).
    constructor.
  - destruct (decide (id ∈ timers s)); constructor.
Qed.

(** An invariant of every effect is an invariant of every run. *)
Lemma run_invariant (P : gallery → Prop) :
  (∀ s r, P s → effect_of s r → P r) →
  ∀ evs s, P s → P (run s evs).
Proof.
  intros Hstep. unfold run.
  induction evs as [|ev evs IH]; intros s Hs; [exact Hs |].
  cbn [fold_left]. apply IH, (Hstep s), handle_effect. exact Hs.
Qed.

(** ** The index, the items and the options over any run *)

Lemma effect_valid_index (s r : gallery) :
  valid_index s → effect_of s r →
  valid_index r ∧ items r = items s ∧ config r = config s.
Proof.
  intros Hv He.
  assert (HN : 1 <= items_length s) by (unfold valid_index in Hv; lia).
  destruct He; repeat split; try reflexivity; try (apply Hv);
    try (apply goto_valid; exact HN).
Qed.

(** X1. From a valid index, whatever events arrive (drags, clicks, keys,
    strip clicks, hover, timer ticks), [activeIndex] stays an index into
    [items], and the items and the options are never changed. *)
Theorem events_keep_index_valid (s : gallery) (evs : list event) :
  valid_index s →
  valid_index (run s evs) ∧
  items (run s evs) = items s ∧ config (run s evs) = config s.
Proof.
  intros Hv.
  apply (run_invariant
           (λ g, valid_index g ∧ items g = items s ∧ config g = config s));
    [| repeat split; apply Hv].
  intros g r (Hg & Hi & Hc) He.
  destruct (effect_valid_index g r Hg He) as (Hr & Hi' & Hc').
  repeat split; try apply Hr; congruence.
Qed.

Lemma events_keep_index_valid_witness :
  let s := construct autoplaying (photos 3) in
  let evs := [StageDown (MouseEvent 10); TimerTick 0; NavItemClick 2;
              StageMove (MouseEvent 90) 400; KeyDown ArrowRight;
              StageUp None; ElMouseLeave; TimerTick 1; TrackClick] in
  valid_index s ∧ valid_index (run s evs) ∧ activeIndex (run s evs) = 2.
Proof.
  cbv zeta.
  assert (Hv : valid_index (construct autoplaying (photos 3)))
    by (split; vm_compute; [discriminate | reflexivity]).
  split; [exact Hv |]. split; [| reflexivity].
  exact (proj1 (events_keep_index_valid _ _ Hv)).
Defined.

(** ** The constructed instance *)

Lemma construct_is_render (options : Config) (imgs : list img) :
  ∃ iv live fresh n,
    construct options imgs =
    set_hoverListeners n
      (set_timers iv live fresh (_render (_initStructure options imgs))).
Proof.
  unfold construct. set (s := _render (_initStructure options imgs)).
  destruct (autoplay_on (config s)).
  - eexists _, _, _, _. reflexivity.
  - exists (interval s), (timers s), (nextTimerId s), (hoverListeners s).
    destruct s; reflexivity.
Qed.

Lemma construct_items (options : Config) (imgs : list img) :
  items (construct options imgs) = item_of_img <$> imgs ∧
  config (construct options imgs) = options.
Proof.
  destruct (construct_is_render options imgs) as (iv & live & fresh & n & ->).
  split; reflexivity.
Qed.

Lemma construct_items_length (options : Config) (imgs : list img) :
  items_length (construct options imgs) = Z.of_nat (length imgs).
Proof.
  unfold items_length. rewrite (proj1 (construct_items options imgs)).
  rewrite length_fmap. reflexivity.
Qed.

Lemma construct_valid_index (options : Config) (imgs : list img) :
  imgs ≠ [] → valid_index (construct options imgs).
Proof.
  intros Hne.
  assert (HN : 1 <= Z.of_nat (length imgs))
    by (destruct imgs; [congruence | cbn [length]; lia]).
  pose proof (construct_items_length options imgs) as Hlen.
  destruct (construct_is_render options imgs) as (iv & live & fresh & n & Hc).
  unfold valid_index. rewrite Hlen. rewrite Hc.
  cbn [activeIndex set_hoverListeners set_timers]. unfold _render.
  rewrite goto_activeIndex.
  assert (Hl : items_length (_initStructure options imgs)
               = Z.of_nat (length imgs))
    by (unfold items_length, _initStructure; cbn [items];
        rewrite length_fmap; reflexivity).
  rewrite <- Hl. apply goto_index_range. rewrite Hl. exact HN.
Qed.

(** ** The strip follows the active slide *)

Lemma update_nav_in_range (thumbs : list bool) (scrolled : option nat)
    (index : Z) :
  0 <= index < Z.of_nat (length thumbs) →
  update_nav thumbs scrolled index =
    (<[Z.to_nat index := true]> (replicate (length thumbs) false),
     Some (Z.to_nat index)).
Proof.
  intros Hi. unfold update_nav, thumb_at.
  rewrite (const_fmap (λ _ : bool, false) thumbs false) by reflexivity.
  destruct (Z.ltb_spec index 0); [lia |].
  rewrite lookup_replicate_2 by lia. reflexivity.
Qed.

Lemma goto_nav_synced (s : gallery) (index : Z) (animate : bool) :
  1 <= items_length s → strip_matches s →
  strip_matches (goto s index animate) ∧ nav_synced (goto s index animate).
Proof.
  intros HN Hstrip.
  pose proof (goto_index_range s index HN) as Hr.
  unfold strip_matches, nav_synced, goto in *.
  cbn [navContainer navScroll items activeIndex].
  destruct (navContainer s) as [thumbs|]; cbn [fst snd]; [| split; exact I].
  assert (Hlen : Z.of_nat (length thumbs) = items_length s)
    by (unfold items_length; rewrite Hstrip; reflexivity).
  rewrite update_nav_in_range by (rewrite Hlen; exact Hr).
  cbn [fst snd]. rewrite length_insert, length_replicate, Hstrip.
  repeat split.
Qed.

Lemma effect_nav_synced (s r : gallery) :
  valid_index s ∧ strip_matches s ∧ nav_synced s → effect_of s r →
  valid_index r ∧ strip_matches r ∧ nav_synced r.
Proof.
  intros (Hv & Hs & Hn) He.
  assert (HN : 1 <= items_length s) by (unfold valid_index in Hv; lia).
  destruct (effect_valid_index s r Hv He) as (Hv' & _ & _).
  split; [exact Hv' |].
  destruct He; try (split; [exact Hs | exact Hn]).
  - exact (goto_nav_synced (set_isDragging false s) _ true HN Hs).
  - exact (goto_nav_synced s index animate HN Hs).
Qed.

Lemma construct_nav_synced (options : Config) (imgs : list img) :
  imgs ≠ [] →
  strip_matches (construct options imgs) ∧ nav_synced (construct options imgs).
Proof.
  intros Hne.
  destruct (construct_is_render options imgs) as (iv & live & fresh & n & ->).
  apply (goto_nav_synced (_initStructure options imgs) 0 false).
  - unfold items_length, _initStructure. cbn [items]. rewrite length_fmap.
    destruct imgs; [congruence | cbn [length]; lia].
  - apply construct_strip_matches.
Qed.

(** X2. An instance constructed over at least one image with a navigation
    strip keeps the strip on the active slide through every run of events:
    the strip has one entry per image, the entry of [activeIndex] is the only
    one marked active, and it is the entry last scrolled into view. *)
Theorem strip_follows_active_slide (options : Config) (imgs : list img)
    (evs : list event) :
  imgs ≠ [] → is_Some (nav options) →
  let r := run (construct options imgs) evs in
  navContainer r =
    Some (<[Z.to_nat (activeIndex r) := true]> (replicate (length imgs) false)) ∧
  navScroll r = Some (Z.to_nat (activeIndex r)) ∧
  0 <= activeIndex r < Z.of_nat (length imgs).
Proof.
  intros Hne [kind Hnav] r. subst r.
  set (s := construct options imgs).
  destruct (construct_nav_synced options imgs Hne) as [Hs Hn].
  pose proof (construct_valid_index options imgs Hne) as Hv.
  assert (Hrun : valid_index (run s evs) ∧ items (run s evs) = items s).
  { apply (run_invariant (λ g, valid_index g ∧ items g = items s));
      [| split; [exact Hv | reflexivity]].
    intros g g' (Hg & Hgi) He.
    destruct (effect_valid_index g g' Hg He) as (Hg' & Hi' & _).
    split; [exact Hg' | congruence]. }
  destruct Hrun as (Hv' & Hi).
  destruct (run_invariant _ effect_nav_synced evs s (conj Hv (conj Hs Hn)))
    as (_ & Hs' & Hn').
  assert (Hlen : length (items (run s evs)) = length imgs).
  { rewrite Hi. unfold s. rewrite (proj1 (construct_items options imgs)).
    apply length_fmap. }
  assert (Hsome : is_Some (navContainer (run s evs))).
  { apply (run_invariant (λ g, is_Some (navContainer g))).
    - intros g g' Hg He. destruct He; try exact Hg;
        unfold _touchEnd, goto; cbn [navContainer set_isDragging];
        destruct (navContainer g); cbn [fst]; eauto;
        destruct Hg as [? Hg]; discriminate Hg.
    - destruct (construct_is_render options imgs)
        as (iv & live & fresh & n & Hcon).
      unfold s. rewrite Hcon.
      cbn [navContainer set_hoverListeners set_timers]. unfold _render, goto.
      cbn [navContainer _initStructure]. rewrite Hnav. cbn [fst]. eauto. }
  unfold nav_synced in Hn'. destruct Hsome as [thumbs Hth].
  rewrite Hth in Hn'. destruct Hn' as [-> Hscroll].
  rewrite Hth, Hlen. split; [reflexivity |]. split; [exact Hscroll |].
  unfold valid_index, items_length in Hv'. rewrite Hlen in Hv'. exact Hv'.
Qed.

Lemma strip_follows_active_slide_witness :
  let evs := [KeyDown ArrowRight; StageDown (MouseEvent 5); NavItemClick 3;
              KeyDown ArrowRight; StageUp None] in
  let r := run (construct looping (photos 4)) evs in
  photos 4 ≠ [] ∧ is_Some (nav looping) ∧
  activeIndex r = 0 ∧
  navContainer r = Some [true; false; false; false] ∧
  navScroll r = Some 0%nat.
Proof.
  cbv zeta.
  assert (H1 : photos 4 ≠ []) by discriminate.
  assert (H2 : is_Some (nav looping)) by (eexists; reflexivity).
  split; [exact H1 |]. split; [exact H2 |]. split; [reflexivity |].
  destruct (strip_follows_active_slide looping (photos 4)
              [KeyDown ArrowRight; StageDown (MouseEvent 5); NavItemClick 3;
               KeyDown ArrowRight; StageUp None] H1 H2) as (Hn & Hs & _).
  split; [exact Hn | exact Hs].
Defined.

(** ** The track follows the active slide *)

Lemma effect_track_synced (s r : gallery) :
  track_synced s → effect_of s r → track_synced r.
Proof.
  intros [Hc Ht] He. unfold track_synced in *.
  destruct He; try (split; [exact Hc | exact Ht]).
  - cbn [_touchStart currentTranslate track_transform activeIndex isDragging
         set_transition set_startPos set_isDragging].
    split; [exact Hc |].
    destruct (track_transform s); [exact Ht | exact Ht |].
    split; [apply Ht | reflexivity].
  - cbn [currentTranslate track_transform activeIndex isDragging set_transform].
    split; [exact Hc |]. split; [reflexivity | assumption].
  - split; reflexivity.
  - split; reflexivity.
Qed.

Lemma construct_track_synced (options : Config) (imgs : list img) :
  track_synced (construct options imgs).
Proof.
  destruct (construct_is_render options imgs) as (iv & live & fresh & n & ->).
  split; reflexivity.
Qed.

(** X3. At every moment after construction, with or without images, the
    cached translate is -100 times [activeIndex]; while no drag is in
    progress the track's transform is exactly that percentage, and during a
    drag it is either that or a live offset taken from the current
    [activeIndex]. *)
Theorem track_follows_active_slide (options : Config) (imgs : list img)
    (evs : list event) :
  let r := run (construct options imgs) evs in
  currentTranslate r = - (activeIndex r * 100) ∧
  (isDragging r = false →
   track_transform r = TranslateX (- (activeIndex r * 100))) ∧
  (isDragging r = true →
   track_transform r = TranslateX (- (activeIndex r * 100)) ∨
   ∃ diff w, track_transform r = TranslateXDrag (activeIndex r) diff w).
Proof.
  intros r.
  destruct (run_invariant _ effect_track_synced evs _
              (construct_track_synced options imgs)) as [Hc Ht].
  fold r in Hc, Ht. split; [exact Hc |].
  destruct (track_transform r) as [|p|i diff w]; [destruct Ht | |].
  - subst p. split; [reflexivity | left; reflexivity].
  - destruct Ht as [-> Hd]. split.
    + intros Hf. congruence.
    + intros _. right. eexists _, _. reflexivity.
Qed.

Lemma track_follows_active_slide_witness :
  let idle := run (construct looping (photos 3))
                  [StageDown (MouseEvent 100); StageMove (MouseEvent 70) 400;
                   KeyDown ArrowLeft; StageUp None] in
  let dragging := run (construct looping (photos 3))
                      [StageDown (MouseEvent 100); KeyDown ArrowLeft;
                       StageMove (MouseEvent 70) 400] in
  isDragging idle = false ∧ activeIndex idle = 2 ∧
  track_transform idle = TranslateX (-200) ∧
  isDragging dragging = true ∧
  track_transform dragging = TranslateXDrag 2 (-30) 400.
Proof.
  cbv zeta. split; [reflexivity |]. split; [reflexivity |]. split.
  - destruct (track_follows_active_slide looping (photos 3)
                [StageDown (MouseEvent 100); StageMove (MouseEvent 70) 400;
                 KeyDown ArrowLeft; StageUp None]) as (_ & Hidle & _).
    exact (Hidle eq_refl).
  - split; reflexivity.
Defined.

(** ** Gates *)

Lemma handle_swipe_off (s : gallery) (ev : event) :
  swipe (config s) = false →
  isDragging (handle s ev) = isDragging s ∧
  startPos (handle s ev) = startPos s ∧
  config (handle s ev) = config s.
Proof.
  intros Hoff.
  destruct ev as [e|e w|e| | |k| | |index| | |id]; cbn [handle];
    rewrite ?Hoff; try (repeat split; reflexivity).
  - destruct (click (config s)); repeat split.
  - destruct (keyboard (config s)), k; repeat split.
  - destruct (arrows (config s)); repeat split.
  - destruct (arrows (config s)); repeat split.
  - destruct (navContainer s) as [thumbs|]; [| repeat split].
    destruct (decide (index < length thumbs)%nat); repeat split.
  - destruct (hover_iter_timers clearInterval (hoverListeners s) s
                clearInterval_timers) as (iv & live & fresh & ->).
    repeat split.
  - destruct (hover_iter_timers setInterval (hoverListeners s) s
                setInterval_timers) as (iv & live & fresh & ->).
    repeat split.
  - destruct (decide (id ∈ timers s)); repeat split.
Qed.

(** X4. With the [swipe] option off no drag ever starts: through every run
    of events, pointer events on the stage included, [isDragging] and
    [startPos] keep their values, and every stage event leaves the whole
    instance as it is. *)
Theorem swipe_off_never_drags (s : gallery) (evs : list event)
    (e : pointer_event) (w : Z) :
  swipe (config s) = false →
  isDragging (run s evs) = isDragging s ∧
  startPos (run s evs) = startPos s ∧
  handle s (StageDown e) = s ∧ handle s (StageMove e w) = s ∧
  handle s (StageUp (Some e)) = s ∧ handle s StageMouseLeave = s.
Proof.
  intros Hoff. split; [| split].
  - revert s Hoff. unfold run.
    induction evs as [|ev evs IH]; intros s Hoff; [reflexivity |].
    cbn [fold_left].
    destruct (handle_swipe_off s ev Hoff) as (Hd & _ & Hc).
    rewrite IH by (rewrite Hc; exact Hoff). exact Hd.
  - revert s Hoff. unfold run.
    induction evs as [|ev evs IH]; intros s Hoff; [reflexivity |].
    cbn [fold_left].
    destruct (handle_swipe_off s ev Hoff) as (_ & Hp & Hc).
    rewrite IH by (rewrite Hc; exact Hoff). exact Hp.
  - cbn [handle]. rewrite Hoff. repeat split.
Qed.

Lemma swipe_off_never_drags_witness :
  let options :=
    {| nav := None; loop := true; autoplay := Some 2000; arrows := true;
       click := true; swipe := false; keyboard := true |} in
  let s := construct options (photos 3) in
  let evs := [StageDown (TouchEvent 100 []); TimerTick 0;
              StageMove (TouchEvent 20 []) 300; StageUp None; TrackClick] in
  swipe (config s) = false ∧
  isDragging (run s evs) = false ∧ activeIndex (run s evs) = 2.
Proof.
  cbv zeta.
  set (s := construct _ (photos 3)).
  assert (Hoff : swipe (config s) = false) by reflexivity.
  split; [exact Hoff |]. split; [| reflexivity].
  exact (proj1 (swipe_off_never_drags s _ (MouseEvent 0) 0 Hoff)).
Defined.

(** ** Timers over runs of events *)

Lemma handle_timer_handles (s : gallery) (ev : event) :
  is_hover ev = false →
  nextTimerId (handle s ev) = nextTimerId s ∧
  hoverListeners (handle s ev) = hoverListeners s.
Proof.
  intros Hev. destruct ev; try discriminate Hev; handle_cases;
    split; reflexivity.
Qed.

Lemma handle_no_listener (s : gallery) (ev : event) :
  hoverListeners s = 0%nat →
  timers (handle s ev) = timers s ∧ interval (handle s ev) = interval s ∧
  hoverListeners (handle s ev) = 0%nat.
Proof.
  intros H0. destruct (is_hover ev) eqn:Hev.
  - destruct ev; try discriminate Hev; cbn [handle]; rewrite H0;
      repeat split; assumption.
  - destruct (handle_timers s ev Hev) as [Ht Hi].
    destruct (handle_timer_handles s ev Hev) as [_ Hl].
    repeat split; congruence.
Qed.

(** X5. When [autoplay] is off ([false] or 0) the constructor schedules no
    timer and adds no hover listener, and no event ever schedules one: after
    any run of events no interval timer is live, no handle is stored, and a
    timer tick changes nothing. *)
Theorem autoplay_off_never_ticks (options : Config) (imgs : list img)
    (evs : list event) (id : nat) :
  autoplay_on options = false →
  let r := run (construct options imgs) evs in
  timers r = ∅ ∧ interval r = None ∧ handle r (TimerTick id) = r.
Proof.
  intros Hoff r.
  assert (Hinv : hoverListeners r = 0%nat ∧ timers r = ∅ ∧ interval r = None).
  { subst r. unfold run.
    assert (Hbase : hoverListeners (construct options imgs) = 0%nat ∧
                    timers (construct options imgs) = ∅ ∧
                    interval (construct options imgs) = None).
    { unfold construct. change (config (_render _)) with options.
      rewrite Hoff. repeat split. }
    revert Hbase. generalize (construct options imgs) as s.
    induction evs as [|ev evs IH]; intros s Hs; [exact Hs |].
    cbn [fold_left]. apply IH.
    destruct Hs as (H0 & Ht & Hi).
    destruct (handle_no_listener s ev H0) as (Ht' & Hi' & H0').
    repeat split; congruence. }
  destruct Hinv as (_ & Ht & Hi). split; [exact Ht |]. split; [exact Hi |].
  cbn [handle]. rewrite decide_False; [reflexivity |].
  rewrite Ht. apply not_elem_of_empty.
Qed.

Lemma autoplay_off_never_ticks_witness :
  let options :=
    {| nav := Some NavThumbs; loop := true; autoplay := Some 0; arrows := true;
       click := true; swipe := true; keyboard := true |} in
  let r := run (construct options (photos 2))
               [ElMouseLeave; ElMouseEnter; ElMouseLeave; TrackClick] in
  autoplay_on options = false ∧ timers r = ∅ ∧
  activeIndex (handle r (TimerTick 0)) = 1.
Proof.
  cbv zeta.
  set (options := {| nav := Some NavThumbs; loop := true; autoplay := Some 0;
                     arrows := true; click := true; swipe := true;
                     keyboard := true |}).
  assert (Hoff : autoplay_on options = false) by reflexivity.
  destruct (autoplay_off_never_ticks options (photos 2)
              [ElMouseLeave; ElMouseEnter; ElMouseLeave; TrackClick] 0 Hoff)
    as (Ht & _ & Htick).
  split; [exact Hoff |]. split; [exact Ht |].
  rewrite Htick. reflexivity.
Defined.

Lemma hover_single_timer (evs : list event) (inside : bool) (s : gallery)
    (id : nat) :
  hoverListeners s = 1%nat → interval s = Some id →
  timers s = (if inside then ∅ else {[ id ]}) →
  hover_alternates inside evs = true →
  hoverListeners (run s evs) = 1%nat ∧
  ∃ id', interval (run s evs) = Some id' ∧
         timers (run s evs) =
           if inside_after inside evs then ∅ else {[ id' ]}.
Proof.
  unfold run. revert inside s id.
  induction evs as [|ev evs IH]; intros inside s id Hl Hi Ht Halt.
  - split; [exact Hl |]. exists id. split; [exact Hi | exact Ht].
  - cbn [fold_left]. destruct (is_hover ev) eqn:Hev.
    + destruct ev; try discriminate Hev;
        cbn [hover_alternates inside_after] in *;
        apply andb_prop in Halt as [Hin Halt].
      * (* mouseenter, the pointer was outside *)
        destruct inside; [discriminate Hin |].
        apply (IH true _ id); try exact Halt;
          cbn [handle]; rewrite Hl; cbn [Nat.iter nat_rect];
          unfold clearInterval; rewrite Hi; cbn; try reflexivity;
          try exact Hl; try exact Hi.
        rewrite Ht. apply difference_diag_L.
      * (* mouseleave, the pointer was inside *)
        destruct inside; [| discriminate Hin].
        apply (IH false _ (nextTimerId s)); try exact Halt;
          cbn [handle]; rewrite Hl; cbn [Nat.iter nat_rect];
          unfold setInterval; cbn; try reflexivity; try exact Hl.
        rewrite Ht. apply (right_id_L ∅ (∪)).
    + destruct (handle_timers s ev Hev) as [Ht' Hi'].
      destruct (handle_timer_handles s ev Hev) as [_ Hl'].
      assert (Hsame : hover_alternates inside (ev :: evs)
                      = hover_alternates inside evs
                      ∧ inside_after inside (ev :: evs)
                        = inside_after inside evs)
        by (destruct ev; try discriminate Hev; split; reflexivity).
      destruct Hsame as [Ha Hb]. rewrite Hb. rewrite Ha in Halt.
      apply (IH inside _ id); try exact Halt; congruence.
Qed.

(** X6. Hover pauses autoplay, and never compounds it, as long as the
    container's mouseenter and mouseleave events come in turn, starting
    with the pointer outside: from an instance with one pair of hover
    listeners and its one stored timer live, after any such run of events
    (drags, clicks, keys and ticks in between) no timer is live while the
    pointer is inside, and exactly one, the stored one, is live while it is
    outside. *)
Theorem hover_keeps_one_timer (s : gallery) (evs : list event) (id : nat) :
  hoverListeners s = 1%nat → interval s = Some id → timers s = {[ id ]} →
  hover_alternates false evs = true →
  size (timers (run s evs)) = (if inside_after false evs then 0 else 1)%nat ∧
  (inside_after false evs = false →
   ∃ id', interval (run s evs) = Some id' ∧ timers (run s evs) = {[ id' ]}).
Proof.
  intros Hl Hi Ht Halt.
  destruct (hover_single_timer evs false s id Hl Hi Ht Halt)
    as (_ & id' & Hi' & Ht').
  destruct (inside_after false evs).
  - split; [| discriminate]. rewrite Ht'. apply size_empty.
  - split; [rewrite Ht'; apply size_singleton |].
    intros _. exists id'. split; assumption.
Qed.

Lemma hover_keeps_one_timer_witness :
  let s := construct autoplaying (photos 3) in
  let evs := [TimerTick 0; ElMouseEnter; StageDown (MouseEvent 10);
              TimerTick 0; StageUp None; ElMouseLeave; TimerTick 1] in
  hoverListeners s = 1%nat ∧ interval s = Some 0%nat ∧ timers s = {[ 0%nat ]} ∧
  hover_alternates false evs = true ∧ inside_after false evs = false ∧
  size (timers (run s evs)) = 1%nat ∧
  interval (run s evs) = Some 1%nat ∧
  activeIndex (run s evs) = 2.
Proof.
  cbv zeta.
  set (s := construct autoplaying (photos 3)).
  assert (H1 : hoverListeners s = 1%nat) by reflexivity.
  assert (H2 : interval s = Some 0%nat) by reflexivity.
  assert (H3 : timers s = {[ 0%nat ]}) by (apply (right_id_L ∅ (∪))).
  split; [exact H1 |]. split; [exact H2 |]. split; [exact H3 |].
  split; [reflexivity |]. split; [reflexivity |].
  split; [| split; reflexivity].
  exact (proj1 (hover_keeps_one_timer s
                  [TimerTick 0; ElMouseEnter; StageDown (MouseEvent 10);
                   TimerTick 0; StageUp None; ElMouseLeave; TimerTick 1]
                  0%nat H1 H2 H3 eq_refl)).
Defined.

Lemma iter_invariant (P : gallery → Prop) (f : gallery → gallery) (n : nat)
    (s : gallery) :
  (∀ g, P g → P (f g)) → P s → P (Nat.iter n f s).
Proof.
  intros Hf Hs. induction n as [|n IH]; [exact Hs |].
  rewrite Nat.iter_succ. apply Hf, IH.
Qed.

Lemma handle_keeps_stray_timer (id : nat) (s : gallery) (ev : event) :
  id ∈ timers s ∧ interval s ≠ Some id ∧ (id < nextTimerId s)%nat →
  id ∈ timers (handle s ev) ∧ interval (handle s ev) ≠ Some id ∧
  (id < nextTimerId (handle s ev))%nat.
Proof.
  intros Hs. destruct (is_hover ev) eqn:Hev.
  - destruct ev; try discriminate Hev; cbn [handle];
      apply iter_invariant; try exact Hs; clear; intros g (Hin & Hne & Hlt).
    + unfold clearInterval. destruct (interval g) as [i|] eqn:Hi;
        [| rewrite Hi; repeat split; assumption].
      cbn [timers interval nextTimerId set_timers].
      split; [| split; assumption].
      apply elem_of_difference. split; [exact Hin |].
      rewrite elem_of_singleton. congruence.
    + unfold setInterval. cbn [timers interval nextTimerId set_timers].
      split; [apply elem_of_union_r, Hin |].
      split; [intros [= Heq]; lia | lia].
  - destruct (handle_timers s ev Hev) as [Ht Hi].
    destruct (handle_timer_handles s ev Hev) as [Hn _].
    rewrite Ht, Hi, Hn. exact Hs.
Qed.

(** X7. A scheduled timer whose handle is no longer the stored one is never
    cleared: [clearInterval] is only ever given [this.interval], and every
    later handle is a new one.  Through every run of events such a timer
    stays scheduled and its ticks keep calling [next()], hover or not.
    (Handles are issued in increasing order: [id] is below the next handle.) *)
Theorem stray_timer_is_never_cleared (s : gallery) (evs : list event)
    (id : nat) :
  id ∈ timers s → interval s ≠ Some id → (id < nextTimerId s)%nat →
  id ∈ timers (run s evs) ∧
  handle (run s evs) (TimerTick id) = next (run s evs).
Proof.
  intros Hin Hne Hlt.
  assert (Hinv : id ∈ timers (run s evs) ∧ interval (run s evs) ≠ Some id ∧
                 (id < nextTimerId (run s evs))%nat).
  { unfold run. revert s Hin Hne Hlt.
    induction evs as [|ev evs IH]; intros s Hin Hne Hlt;
      [repeat split; assumption |].
    cbn [fold_left].
    destruct (handle_keeps_stray_timer id s ev (conj Hin (conj Hne Hlt)))
      as (Hin' & Hne' & Hlt').
    apply IH; assumption. }
  destruct Hinv as (Hin' & _). split; [exact Hin' |].
  cbn [handle]. rewrite decide_True by exact Hin'. reflexivity.
Qed.

Lemma stray_timer_is_never_cleared_witness :
  let s := handle (construct autoplaying (photos 3)) ElMouseLeave in
  let evs := [ElMouseEnter; ElMouseLeave; ElMouseEnter] in
  0%nat ∈ timers s ∧ interval s ≠ Some 0%nat ∧ (0 < nextTimerId s)%nat ∧
  interval s = Some 1%nat ∧
  0%nat ∈ timers (run s evs) ∧
  activeIndex (handle (run s evs) (TimerTick 0)) = 1.
Proof.
  cbv zeta.
  set (s := handle (construct autoplaying (photos 3)) ElMouseLeave).
  assert (H1 : 0%nat ∈ timers s).
  { apply elem_of_union_r, elem_of_union_l, elem_of_singleton. reflexivity. }
  assert (H2 : interval s ≠ Some 0%nat) by discriminate.
  assert (H3 : (0 < nextTimerId s)%nat) by (cbn; lia).
  destruct (stray_timer_is_never_cleared s
              [ElMouseEnter; ElMouseLeave; ElMouseEnter] 0%nat H1 H2 H3)
    as [Hin Htick].
  split; [exact H1 |]. split; [exact H2 |]. split; [exact H3 |].
  split; [reflexivity |]. split; [exact Hin |].
  rewrite Htick. reflexivity.
Defined.

(** ** Repeated [next()] and [prev()] *)

Lemma iter_nav_frame (f : gallery → gallery) (k : nat) (s : gallery) :
  (∀ g, items_length (f g) = items_length g ∧ config (f g) = config g) →
  items_length (Nat.iter k f s) = items_length s ∧
  config (Nat.iter k f s) = config s.
Proof.
  intros Hf.
  apply (iter_invariant
           (λ g, items_length g = items_length s ∧ config g = config s));
    [| split; reflexivity].
  intros g [Hl Hc]. destruct (Hf g) as [Hl' Hc']. split; congruence.
Qed.

Lemma next_frame (g : gallery) :
  items_length (next g) = items_length g ∧ config (next g) = config g.
Proof. split; reflexivity. Qed.

Lemma prev_frame (g : gallery) :
  items_length (prev g) = items_length g ∧ config (prev g) = config g.
Proof. split; reflexivity. Qed.

Lemma mod_succ_wrap (x n : Z) :
  0 < n →
  (x + 1) mod n = if x mod n + 1 >=? n then 0 else x mod n + 1.
Proof.
  intros Hn. pose proof (Z.mod_pos_bound x n Hn) as Hb.
  rewrite <- Zplus_mod_idemp_l. rewrite Z.geb_leb.
  destruct (Z.leb_spec n (x mod n + 1)).
  - replace (x mod n + 1) with n by lia. apply Z_mod_same_full.
  - apply Z.mod_small. lia.
Qed.

Lemma mod_pred_wrap (x n : Z) :
  0 < n →
  (x - 1) mod n = if x mod n - 1 <? 0 then n - 1 else x mod n - 1.
Proof.
  intros Hn. pose proof (Z.mod_pos_bound x n Hn) as Hb.
  rewrite <- Zminus_mod_idemp_l.
  destruct (Z.ltb_spec (x mod n - 1) 0).
  - replace (x mod n - 1) with (-1) by lia.
    symmetry. apply (Z.mod_unique _ _ (-1)); lia.
  - apply Z.mod_small. lia.
Qed.

(** X8. In Loop mode, from a valid index, [k] calls of [next()] leave
    [activeIndex] at (activeIndex + k) mod N and [k] calls of [prev()] at
    (activeIndex - k) mod N; N calls of either come back to the slide they
    started on. *)
Theorem loop_steps_are_modular (s : gallery) (k : nat) :
  loop (config s) = true → valid_index s →
  activeIndex (Nat.iter k next s) =
    (activeIndex s + Z.of_nat k) mod items_length s ∧
  activeIndex (Nat.iter k prev s) =
    (activeIndex s - Z.of_nat k) mod items_length s ∧
  activeIndex (Nat.iter (length (items s)) next s) = activeIndex s ∧
  activeIndex (Nat.iter (length (items s)) prev s) = activeIndex s.
Proof.
  intros Hloop Hv. unfold valid_index in Hv.
  assert (HN : 0 < items_length s) by lia.
  assert (Hnext : ∀ j, activeIndex (Nat.iter j next s) =
                       (activeIndex s + Z.of_nat j) mod items_length s).
  { induction j as [|j IH].
    - cbn [Nat.iter nat_rect]. rewrite Z.add_0_r, Z.mod_small; lia.
    - rewrite Nat.iter_succ, next_activeIndex.
      destruct (iter_nav_frame next j s next_frame) as [Hl Hc].
      rewrite goto_index_loop by (rewrite ?Hc, ?Hl; first [exact Hloop | lia]).
      rewrite Hl, IH.
      pose proof (Z.mod_pos_bound (activeIndex s + Z.of_nat j)
                    (items_length s) HN) as Hb.
      replace (activeIndex s + Z.of_nat (S j))
        with (activeIndex s + Z.of_nat j + 1) by lia.
      rewrite mod_succ_wrap by exact HN.
      destruct (Z.ltb_spec ((activeIndex s + Z.of_nat j) mod items_length s + 1)
                  0); [lia | reflexivity]. }
  assert (Hprev : ∀ j, activeIndex (Nat.iter j prev s) =
                       (activeIndex s - Z.of_nat j) mod items_length s).
  { induction j as [|j IH].
    - cbn [Nat.iter nat_rect]. rewrite Z.sub_0_r, Z.mod_small; lia.
    - rewrite Nat.iter_succ, prev_activeIndex.
      destruct (iter_nav_frame prev j s prev_frame) as [Hl Hc].
      rewrite goto_index_loop by (rewrite ?Hc, ?Hl; first [exact Hloop | lia]).
      rewrite Hl, IH.
      pose proof (Z.mod_pos_bound (activeIndex s - Z.of_nat j)
                    (items_length s) HN) as Hb.
      replace (activeIndex s - Z.of_nat (S j))
        with (activeIndex s - Z.of_nat j - 1) by lia.
      rewrite mod_pred_wrap by exact HN.
      destruct (Z.ltb_spec ((activeIndex s - Z.of_nat j) mod items_length s - 1)
                  0); [reflexivity |].
      rewrite Z.geb_leb.
      destruct (Z.leb_spec (items_length s)
                  ((activeIndex s - Z.of_nat j) mod items_length s - 1));
        [lia | reflexivity]. }
  split; [apply Hnext |]. split; [apply Hprev |].
  rewrite Hnext, Hprev. fold (items_length s).
  split.
  - rewrite <- (Z.mul_1_l (items_length s)) at 1.
    rewrite Z_mod_plus_full. apply Z.mod_small. lia.
  - replace (activeIndex s - items_length s)
      with (activeIndex s + (-1) * items_length s) by lia.
    rewrite Z_mod_plus_full. apply Z.mod_small. lia.
Qed.

Lemma loop_steps_are_modular_witness :
  let s := goto (construct looping (photos 5)) 3 true in
  loop (config s) = true ∧ valid_index s ∧
  activeIndex (Nat.iter 4 next s) = 2 ∧
  activeIndex (Nat.iter 4 prev s) = 4 ∧
  activeIndex (Nat.iter 5 next s) = 3.
Proof.
  cbv zeta.
  set (s := goto (construct looping (photos 5)) 3 true).
  assert (H1 : loop (config s) = true) by reflexivity.
  assert (H2 : valid_index s)
    by (split; vm_compute; [discriminate | reflexivity]).
  split; [exact H1 |]. split; [exact H2 |].
  destruct (loop_steps_are_modular s 4 H1 H2) as (Hn & Hp & Hfull & _).
  split; [exact Hn |]. split; [exact Hp | exact Hfull].
Defined.

(** X9. In Clamp mode, from a valid index, [k] calls of [next()] leave
    [activeIndex] at min(N-1, activeIndex + k) and [k] calls of [prev()] at
    max(0, activeIndex - k): the index saturates at the ends, so [prev()]
    does not undo a [next()] made at the last slide. *)
Theorem clamp_steps_saturate (s : gallery) (k : nat) :
  loop (config s) = false → valid_index s →
  activeIndex (Nat.iter k next s) =
    Z.min (items_length s - 1) (activeIndex s + Z.of_nat k) ∧
  activeIndex (Nat.iter k prev s) = Z.max 0 (activeIndex s - Z.of_nat k) ∧
  (activeIndex s = items_length s - 1 → 2 <= items_length s →
   activeIndex (prev (next s)) = activeIndex s - 1).
Proof.
  intros Hloop Hv. unfold valid_index in Hv.
  assert (HN : 1 <= items_length s) by lia.
  split; [| split].
  - induction k as [|k IH].
    + cbn [Nat.iter nat_rect]. lia.
    + rewrite Nat.iter_succ, next_activeIndex.
      destruct (iter_nav_frame next k s next_frame) as [Hl Hc].
      rewrite goto_index_clamp by (rewrite ?Hc, ?Hl; assumption).
      rewrite Hl, IH. lia.
  - induction k as [|k IH].
    + cbn [Nat.iter nat_rect]. lia.
    + rewrite Nat.iter_succ, prev_activeIndex.
      destruct (iter_nav_frame prev k s prev_frame) as [Hl Hc].
      rewrite goto_index_clamp by (rewrite ?Hc, ?Hl; assumption).
      rewrite Hl, IH. lia.
  - intros Hlast H2.
    rewrite prev_activeIndex, (goto_index_clamp (next s)) by assumption.
    change (items_length (next s)) with (items_length s).
    rewrite next_activeIndex, goto_index_clamp by assumption. lia.
Qed.

Lemma clamp_steps_saturate_witness :
  let s := goto (construct defaults (photos 4)) 2 true in
  loop (config s) = false ∧ valid_index s ∧
  activeIndex (Nat.iter 5 next s) = 3 ∧
  activeIndex (Nat.iter 5 prev s) = 0 ∧
  activeIndex (prev (next (next s))) = 2.
Proof.
  cbv zeta.
  set (s := goto (construct defaults (photos 4)) 2 true).
  assert (H1 : loop (config s) = false) by reflexivity.
  assert (H2 : valid_index s)
    by (split; vm_compute; [discriminate | reflexivity]).
  split; [exact H1 |]. split; [exact H2 |].
  destruct (clamp_steps_saturate s 5 H1 H2) as (Hn & Hp & _).
  split; [exact Hn |]. split; [exact Hp |].
  assert (H3 : valid_index (next s))
    by (split; vm_compute; [discriminate | reflexivity]).
  destruct (clamp_steps_saturate (next s) 0 H1 H3) as (_ & _ & Hback).
  exact (Hback eq_refl ltac:(vm_compute; discriminate)).
Defined.

(** ** Strip clicks *)

(** X10. A click on entry [i] of the navigation strip shows slide [i], in
    Clamp and in Loop mode alike, with animation; it marks entry [i] and no
    other as active and scrolls it into view. *)
Theorem strip_click_selects (s : gallery) (thumbs : list bool) (i : nat) :
  navContainer s = Some thumbs → length thumbs = length (items s) →
  (i < length thumbs)%nat →
  let r := handle s (NavItemClick i) in
  activeIndex r = Z.of_nat i ∧
  track_transition r = TransitionEaseOut ∧
  track_transform r = TranslateX (- (Z.of_nat i * 100)) ∧
  navContainer r = Some (<[i := true]> (replicate (length thumbs) false)) ∧
  navScroll r = Some i.
Proof.
  intros Hnav Hlen Hi r. subst r. cbn [handle]. rewrite Hnav.
  rewrite decide_True by exact Hi.
  assert (Hin : 0 <= Z.of_nat i < items_length s)
    by (unfold items_length; lia).
  unfold goto. cbn [activeIndex track_transition track_transform navContainer
                    navScroll].
  rewrite (goto_index_valid s _ Hin), Hnav. cbn [fst snd].
  rewrite update_nav_in_range by lia. cbn [fst snd].
  rewrite Nat2Z.id. repeat split.
Qed.

Lemma strip_click_selects_witness :
  let s := construct looping (photos 3) in
  navContainer s = Some [true; false; false] ∧
  length [true; false; false] = length (items s) ∧
  (2 < length [true; false; false])%nat ∧
  activeIndex (handle s (NavItemClick 2)) = 2 ∧
  navContainer (handle s (NavItemClick 2)) = Some [false; false; true].
Proof.
  cbv zeta.
  set (s := construct looping (photos 3)).
  assert (H1 : navContainer s = Some [true; false; false]) by reflexivity.
  assert (H2 : length [true; false; false] = length (items s))
    by reflexivity.
  assert (H3 : (2 < length [true; false; false])%nat) by (cbn; lia).
  split; [exact H1 |]. split; [exact H2 |]. split; [exact H3 |].
  destruct (strip_click_selects s _ 2%nat H1 H2 H3) as (Ha & _ & _ & Hn & _).
  split; [exact Ha | exact Hn].
Defined.

(** ** A whole drag *)

Lemma moves_only_transform (moves : list (pointer_event * Z)) (g : gallery) :
  ∃ t, fold_left (λ g m, _touchMove g m.1 m.2) moves g = set_transform t g.
Proof.
  revert g. induction moves as [|m moves IH]; intros g.
  - exists (track_transform g). symmetry. apply set_transform_same.
  - cbn [fold_left]. destruct (IH (_touchMove g m.1 m.2)) as [t ->].
    unfold _touchMove. destruct (isDragging g); cbn [negb];
      eexists; reflexivity.
Qed.

(** X11. A whole drag leaves no trace of where the pointer went: whatever
    the move samples, the stage widths and the end event, the instance after
    the drag is the one [goto(activeIndex)] gives, idle, with only the start
    position kept in [startPos].  A start event arriving during a drag
    restarts it: the earlier start position is forgotten. *)
Theorem drag_depends_on_start_only (s : gallery) (start : pointer_event)
    (moves : list (pointer_event * Z)) (finish : option pointer_event)
    (earlier : pointer_event) :
  drag s start moves finish =
    set_isDragging false
      (set_startPos (_getPositionX start) (goto s (activeIndex s) true)) ∧
  drag (_touchStart s earlier) start moves finish =
    drag s start moves finish.
Proof.
  unfold drag.
  destruct (moves_only_transform moves (_touchStart s start)) as [t ->].
  destruct (moves_only_transform moves
              (_touchStart (_touchStart s earlier) start)) as [t' ->].
  split; reflexivity.
Qed.

(** ** Construction *)

(** X12. Constructed over at least one image, the instance shows slide 0
    without animation and is idle; it has one item per image, each with its
    thumbnail equal to its source; and it has scheduled exactly one timer,
    with one pair of hover listeners, when [autoplay] is a non-zero time,
    and none otherwise. *)
Theorem construct_shows_first_slide (options : Config) (imgs : list img) :
  imgs ≠ [] →
  let s := construct options imgs in
  activeIndex s = 0 ∧ isDragging s = false ∧
  track_transition s = TransitionNone ∧ track_transform s = TranslateX 0 ∧
  length (items s) = length imgs ∧
  Forall (λ it, thumb it = src it) (items s) ∧
  timers s = (if autoplay_on options then {[ 0%nat ]} else ∅) ∧
  interval s = (if autoplay_on options then Some 0%nat else None) ∧
  hoverListeners s = (if autoplay_on options then 1 else 0)%nat.
Proof.
  intros Hne s.
  assert (Hlen : items_length (_initStructure options imgs)
                 = Z.of_nat (length imgs))
    by (unfold items_length, _initStructure; cbn [items];
        rewrite length_fmap; reflexivity).
  assert (Hzero : goto_index (_initStructure options imgs) 0 = 0).
  { apply goto_index_valid. rewrite Hlen.
    destruct imgs; [congruence | cbn [length]; lia]. }
  assert (Hitems : items s = item_of_img <$> imgs)
    by apply construct_items.
  assert (Hcore : activeIndex s = 0 ∧ isDragging s = false ∧
                  track_transition s = TransitionNone ∧
                  track_transform s = TranslateX 0).
  { subst s.
    destruct (construct_is_render options imgs) as (iv & live & fresh & n & ->).
    cbn [activeIndex isDragging track_transition track_transform
         set_hoverListeners set_timers _render goto].
    change (activeIndex (_initStructure options imgs)) with 0.
    rewrite Hzero. repeat split. }
  destruct Hcore as (Ha & Hd & Ht & Hx).
  split; [exact Ha |]. split; [exact Hd |]. split; [exact Ht |].
  split; [exact Hx |]. split; [rewrite Hitems; apply length_fmap |].
  split.
  - rewrite Hitems. apply Forall_fmap, Forall_true. intros i. reflexivity.
  - subst s. unfold construct. change (config (_render _)) with options.
    destruct (autoplay_on options); [| repeat split].
    split; [apply (right_id_L ∅ (∪)) | split; reflexivity].
Qed.

Lemma construct_shows_first_slide_witness :
  let s := construct autoplaying [Img "a.jpg" None; Img "b.jpg" (Some "B")] in
  [Img "a.jpg" None; Img "b.jpg" (Some "B")] ≠ [] ∧
  activeIndex s = 0 ∧ track_transition s = TransitionNone ∧
  length (items s) = 2%nat ∧ timers s = {[ 0%nat ]}.
Proof.
  cbv zeta.
  assert (Hne : [Img "a.jpg" None; Img "b.jpg" (Some "B")] ≠ [])
    by discriminate.
  destruct (construct_shows_first_slide autoplaying _ Hne)
    as (Ha & _ & Ht & _ & Hl & _ & Htm & _).
  split; [exact Hne |]. split; [exact Ha |]. split; [exact Ht |].
  split; [exact Hl | exact Htm].
Defined.

(** ** Merging the configuration *)

Section MergeProperties.
Import Options.
Context (parseInt : string → option Z).

Lemma copy_attribute_lookup (dataset : gmap string string) (name : string)
    (parse : string → value) (d : gmap string value) (k : string) :
  copy_attribute dataset name parse d !! k =
    if decide (name = k)
    then match attribute dataset name with
         | Some v => Some (parse v)
         | None => d !! k
         end
    else d !! k.
Proof.
  unfold copy_attribute. destruct (attribute dataset name) as [v|].
  - apply lookup_insert.
  - destruct (decide (name = k)); reflexivity.
Qed.

Lemma dataConfig_lookup_other (dataset : gmap string string) (k : string) :
  k ∉ data_keys → dataConfig parseInt dataset !! k = None.
Proof.
  intros Hk. unfold dataConfig. cbv zeta.
  rewrite !copy_attribute_lookup.
  repeat (destruct (decide (_ = k)) as [<-|_];
          [exfalso; apply Hk; unfold data_keys; set_solver |]).
  apply lookup_empty.
Qed.
Lemma attribute_of (dataset : gmap string string) (name v : string) :
  dataset !! name = Some v →
  attribute dataset name = if decide (v = EmptyString) then None else Some v.
Proof.
  intros H. unfold attribute. rewrite H. destruct v; reflexivity.
Qed.

Lemma dataConfig_dom (dataset : gmap string string) (k : string) :
  is_Some (dataConfig parseInt dataset !! k) → k ∈ data_keys.
Proof.
  intros [v Hv]. destruct (decide (k ∈ data_keys)) as [Hin|Hout];
    [exact Hin |].
  rewrite (dataConfig_lookup_other dataset k Hout) in Hv. discriminate Hv.
Qed.

Lemma data_keys_have_defaults (k : string) :
  k ∈ data_keys → is_Some (defaults !! k).
Proof.
  unfold data_keys. intros Hk.
  repeat (apply elem_of_cons in Hk as [->|Hk]; [eexists; reflexivity |]).
  apply elem_of_nil in Hk. destruct Hk.
Qed.

(** X13. In the merged configuration a constructor option wins over the
    data attribute and the default of the same key, a mapped data attribute
    wins over the default, and every key of [defaults] has a value; with no
    attribute and no option the result is [defaults] itself, and data
    attributes never add a key that [defaults] lacks. *)
Theorem merge_precedence (dataset : gmap string string)
    (options : gmap string value) (k : string) (v : value) :
  (options !! k = Some v →
   _mergeConfig parseInt dataset options !! k = Some v) ∧
  (options !! k = None → dataConfig parseInt dataset !! k = Some v →
   _mergeConfig parseInt dataset options !! k = Some v) ∧
  (is_Some (defaults !! k) →
   is_Some (_mergeConfig parseInt dataset options !! k)) ∧
  _mergeConfig parseInt ∅ ∅ = defaults ∧
  dom (_mergeConfig parseInt dataset options) = dom options ∪ dom defaults.
Proof.
  unfold _mergeConfig. split; [| split; [| split; [| split]]].
  - intros Ho. apply lookup_union_Some_l, Ho.
  - intros Ho Hd. rewrite lookup_union_r by exact Ho.
    apply lookup_union_Some_l, Hd.
  - intros [d Hd]. rewrite !lookup_union.
    destruct (options !! k), (dataConfig parseInt dataset !! k);
      rewrite Hd; eexists; reflexivity.
  - rewrite (left_id_L ∅ (∪)). unfold dataConfig, copy_attribute, attribute.
    rewrite !lookup_empty. apply (left_id_L ∅ (∪)).
  - rewrite !dom_union_L. apply set_eq. intros x.
    rewrite !elem_of_union, !elem_of_dom.
    pose proof (dataConfig_dom dataset x) as H1.
    pose proof (data_keys_have_defaults x) as H2. tauto.
Qed.

(** X14. Only the nine attributes of [data_keys] are read.  For every other
    key, [click], [swipe] and [keyboard] among them, the merged value is the
    constructor option if given and the default otherwise, whatever the
    container's data attributes say. *)
Theorem unmapped_attributes_are_ignored (dataset : gmap string string)
    (options : gmap string value) (k : string) :
  k ∉ data_keys →
  _mergeConfig parseInt dataset options !! k = (options ∪ defaults) !! k.
Proof.
  intros Hk. unfold _mergeConfig.
  rewrite !lookup_union, (dataConfig_lookup_other dataset k Hk).
  destruct (options !! k), (defaults !! k); reflexivity.
Qed.

(** X15. The boolean attributes [allowfullscreen], [loop] and [arrows]
    turn their option on only when their text is exactly "true": any other
    non-empty text turns it off (so a [data-arrows] of "yes" hides the
    arrows), and an empty attribute is not read at all, which leaves the
    default.  This is when the constructor option of that key is not
    given. *)
Theorem boolean_attribute_needs_true (dataset : gmap string string)
    (options : gmap string value) (name v : string) :
  name ∈ ["allowfullscreen"; "loop"; "arrows"] →
  options !! name = None → dataset !! name = Some v →
  _mergeConfig parseInt dataset options !! name =
    if decide (v = EmptyString) then defaults !! name
    else Some (VBool (bool_decide (v = "true"))).
Proof.
  intros Hname Ho Hd. unfold _mergeConfig.
  rewrite lookup_union_r by exact Ho. rewrite lookup_union.
  repeat (apply elem_of_cons in Hname as [->|Hname]);
    [| | | apply elem_of_nil in Hname; destruct Hname];
    lookup_data_key copy_attribute_lookup; rewrite (attribute_of dataset _ v Hd);
    destruct (decide (v = EmptyString)); reflexivity.
Qed.

(** X16. A non-empty [data-autoplay] gives [autoplay] the number 3000 when
    its text is exactly "true" and what [parseInt] reads from it otherwise;
    it never gives the boolean [true].  When [parseInt] reads no number
    (NaN) or reads 0, the merged [autoplay] fails the constructor's test
    and no timer is started.  This is when the constructor option is not
    given. *)
Theorem autoplay_attribute_is_a_time (dataset : gmap string string)
    (options : gmap string value) (v : string) :
  options !! "autoplay" = None → dataset !! "autoplay" = Some v →
  v ≠ EmptyString →
  _mergeConfig parseInt dataset options !! "autoplay" =
    Some (VNumber (if bool_decide (v = "true") then Some 3000
                   else parseInt v)) ∧
  (v ≠ "true" → parseInt v = None ∨ parseInt v = Some 0 →
   truthy <$> _mergeConfig parseInt dataset options !! "autoplay"
   = Some false).
Proof.
  intros Ho Hd Hv.
  assert (Hm : _mergeConfig parseInt dataset options !! "autoplay" =
               Some (VNumber (if bool_decide (v = "true") then Some 3000
                              else parseInt v))).
  { unfold _mergeConfig. rewrite lookup_union_r by exact Ho.
    rewrite lookup_union. lookup_data_key copy_attribute_lookup.
    rewrite (attribute_of dataset _ v Hd).
    destruct (decide (v = EmptyString)); [contradiction |].
    destruct (bool_decide (v = "true")); reflexivity. }
  split; [exact Hm |].
  intros Hnt Hp. rewrite Hm. rewrite bool_decide_false by exact Hnt.
  destruct Hp as [-> | ->]; reflexivity.
Qed.

End MergeProperties.

Lemma merge_precedence_witness :
  let parse := λ _ : string, @None Z in
  let dataset : gmap string string :=
    {[ "loop" := "true"; "nav" := "thumbs" ]} in
  let options : gmap string Options.value := {[ "loop" := Options.VBool false ]} in
  options !! "loop" = Some (Options.VBool false) ∧
  Options._mergeConfig parse dataset options !! "loop" = Some (Options.VBool false) ∧
  options !! "nav" = None ∧
  Options.dataConfig parse dataset !! "nav" = Some (Options.VString "thumbs") ∧
  Options._mergeConfig parse dataset options !! "nav" = Some (Options.VString "thumbs") ∧
  is_Some (Options._mergeConfig parse dataset options !! "swipe").
Proof.
  cbv zeta.
  set (parse := λ _ : string, @None Z).
  set (dataset := ({[ "loop" := "true"; "nav" := "thumbs" ]}
                   : gmap string string)).
  set (options := ({[ "loop" := Options.VBool false ]} : gmap string Options.value)).
  assert (H1 : options !! "loop" = Some (Options.VBool false)) by reflexivity.
  assert (H2 : options !! "nav" = None) by reflexivity.
  assert (H3 : Options.dataConfig parse dataset !! "nav" = Some (Options.VString "thumbs"))
    by reflexivity.
  assert (H4 : is_Some (Options.defaults !! "swipe")) by (eexists; reflexivity).
  split; [exact H1 |].
  split; [exact (proj1 (merge_precedence parse dataset options "loop"
                          (Options.VBool false)) H1) |].
  split; [exact H2 |]. split; [exact H3 |].
  destruct (merge_precedence parse dataset options "nav" (Options.VString "thumbs"))
    as (_ & Hdata & _).
  split; [exact (Hdata H2 H3) |].
  destruct (merge_precedence parse dataset options "swipe" Options.VUndefined)
    as (_ & _ & Hdef & _).
  exact (Hdef H4).
Defined.

Lemma unmapped_attributes_are_ignored_witness :
  let parse := λ _ : string, @None Z in
  let dataset : gmap string string :=
    {[ "swipe" := "false"; "keyboard" := "false" ]} in
  ("swipe" ∉ Options.data_keys) ∧
  Options._mergeConfig parse dataset ∅ !! "swipe" = Some (Options.VBool true).
Proof.
  cbv zeta.
  set (parse := λ _ : string, @None Z).
  assert (Hk : "swipe" ∉ Options.data_keys).
  { unfold Options.data_keys. intros Hin.
    repeat (apply elem_of_cons in Hin as [Heq|Hin]; [discriminate Heq |]).
    apply elem_of_nil in Hin. exact Hin. }
  split; [exact Hk |].
  rewrite (unmapped_attributes_are_ignored parse _ ∅ "swipe" Hk). reflexivity.
Defined.

Lemma boolean_attribute_needs_true_witness :
  let parse := λ _ : string, @None Z in
  let dataset : gmap string string :=
    {[ "arrows" := "yes"; "loop" := "true" ]} in
  "arrows" ∈ ["allowfullscreen"; "loop"; "arrows"] ∧
  (∅ : gmap string Options.value) !! "arrows" = None ∧
  dataset !! "arrows" = Some "yes" ∧
  Options._mergeConfig parse dataset ∅ !! "arrows" = Some (Options.VBool false) ∧
  Options.defaults !! "arrows" = Some (Options.VBool true).
Proof.
  cbv zeta.
  set (parse := λ _ : string, @None Z).
  set (dataset := ({[ "arrows" := "yes"; "loop" := "true" ]}
                   : gmap string string)).
  assert (H1 : "arrows" ∈ ["allowfullscreen"; "loop"; "arrows"])
    by (apply list_elem_of_further, list_elem_of_further, list_elem_of_here).
  assert (H2 : (∅ : gmap string Options.value) !! "arrows" = None) by reflexivity.
  assert (H3 : dataset !! "arrows" = Some "yes") by reflexivity.
  split; [exact H1 |]. split; [exact H2 |]. split; [exact H3 |].
  split; [| reflexivity].
  exact (boolean_attribute_needs_true parse dataset ∅ "arrows" "yes" H1 H2 H3).
Defined.

Lemma autoplay_attribute_is_a_time_witness :
  let parse := λ _ : string, @None Z in
  let dataset : gmap string string := {[ "autoplay" := "true" ]} in
  (∅ : gmap string Options.value) !! "autoplay" = None ∧
  dataset !! "autoplay" = Some "true" ∧ "true" ≠ EmptyString ∧
  Options._mergeConfig parse dataset ∅ !! "autoplay" =
    Some (Options.VNumber (Some 3000)).
Proof.
  cbv zeta.
  assert (H1 : (∅ : gmap string Options.value) !! "autoplay" = None)
    by reflexivity.
  assert (H2 : ({[ "autoplay" := "true" ]} : gmap string string)
               !! "autoplay" = Some "true") by reflexivity.
  assert (H3 : "true" ≠ EmptyString) by discriminate.
  split; [exact H1 |]. split; [exact H2 |]. split; [exact H3 |].
  exact (proj1 (autoplay_attribute_is_a_time (λ _, None) _ ∅ "true"
                  H1 H2 H3)).
Defined.

(** ** The aspect ratio *)

Lemma includes_slash_app (w x : string) :
  includes_slash (w +:+ String slash x) = true.
Proof.
  induction w as [|c w IH]; simpl.
  - reflexivity.
  - destruct (Ascii.eqb c slash); [reflexivity | exact IH].
Qed.

Lemma split_slash_nonempty (s : string) : split_slash s ≠ [].
Proof.
  induction s as [|c s IH]; simpl; [discriminate |].
  destruct (Ascii.eqb c slash); [discriminate |].
  destruct (split_slash s); discriminate.
Qed.

Lemma split_slash_app (w x : string) :
  includes_slash w = false →
  split_slash (w +:+ String slash x) = w :: split_slash x.
Proof.
  induction w as [|c w IH]; simpl; intros Hw.
  - reflexivity.
  - destruct (Ascii.eqb c slash); [discriminate Hw |].
    rewrite (IH Hw). reflexivity.
Qed.

Lemma split_slash_whole (h : string) :
  includes_slash h = false → split_slash h = [h].
Proof.
  induction h as [|c h IH]; simpl; intros Hh; [reflexivity |].
  destruct (Ascii.eqb c slash); [discriminate Hh |].
  rewrite (IH Hh). reflexivity.
Qed.

Lemma truthy_app_slash (w x : string) :
  Options.truthy (Options.VString (w +:+ String slash x)) = true.
Proof. destruct w; reflexivity. Qed.

(** X17. The stage's ratio: a text "w/h" (no slash inside [w] or [h]) is
    written as "w / h", and anything after a second slash is dropped; a
    non-empty text without a slash is written as it is; an empty text,
    [false], 0 and NaN leave the property unset; and a ratio given as a
    non-zero number or as [true] makes the constructor raise a TypeError. *)
Theorem ratio_is_normalised (w h rest : string) (n : Z) :
  includes_slash w = false → includes_slash h = false →
  stage_ratio (Options.VString (w +:+ String slash h))
    = RatioSet (w +:+ " / " +:+ h) ∧
  stage_ratio (Options.VString (w +:+ String slash (h +:+ String slash rest)))
    = RatioSet (w +:+ " / " +:+ h) ∧
  (w ≠ EmptyString → stage_ratio (Options.VString w) = RatioSet w) ∧
  stage_ratio (Options.VString EmptyString) = RatioUnset ∧
  stage_ratio (Options.VBool false) = RatioUnset ∧
  stage_ratio (Options.VNumber None) = RatioUnset ∧
  stage_ratio (Options.VBool true) = RatioTypeError ∧
  (n ≠ 0 → stage_ratio (Options.VNumber (Some n)) = RatioTypeError).
Proof.
  intros Hw Hh. unfold stage_ratio.
  rewrite !truthy_app_slash, !includes_slash_app.
  rewrite !split_slash_app by assumption.
  rewrite (split_slash_whole h Hh).
  split; [reflexivity |]. split.
  { cbn [lookup list_lookup template_part default].
    destruct (split_slash rest) eqn:Hs;
      [destruct (split_slash_nonempty rest Hs) | reflexivity]. }
  split.
  { intros Hne. destruct w as [|c w]; [congruence |].
    cbn [Options.truthy]. rewrite Hw. reflexivity. }
  do 4 (split; [reflexivity |]).
  intros Hn. cbn [Options.truthy].
  destruct (Z.eqb_spec n 0); [contradiction | reflexivity].
Qed.

Lemma ratio_is_normalised_witness :
  includes_slash "700" = false ∧ includes_slash "467" = false ∧
  stage_ratio (Options.VString "700/467") = RatioSet "700 / 467" ∧
  stage_ratio (Options.VString "16/9/4") = RatioSet "16 / 9" ∧
  stage_ratio (Options.VNumber (Some 2)) = RatioTypeError.
Proof.
  assert (H1 : includes_slash "700" = false) by reflexivity.
  assert (H2 : includes_slash "467" = false) by reflexivity.
  split; [exact H1 |]. split; [exact H2 |].
  destruct (ratio_is_normalised "700" "467" "x" 2 H1 H2)
    as (Hset & _ & _ & _ & _ & _ & _ & Hnum).
  split; [exact Hset |]. split; [reflexivity |].
  apply Hnum. discriminate.
Defined.
